(** * htree: traversal, pruning, text extraction and indentation of html.Node trees

    The development embeds the Go package [htree] (htree.go, indent.go).
    An [html.Node] lives in a store and refers to its parent, children and
    siblings by pointer; the functions follow [FirstChild] / [NextSibling]
    exactly as the Go loops do.  Functions that recurse over the store take
    a fuel argument; [None] stands for "no result": fuel ran out, or the Go
    program would panic on a nil or invalid pointer. *)

From stdpp Require Import base option list strings gmap pretty.
From Stdlib Require Import ZArith Lia Ascii.

(** ** Data model (golang.org/x/net/html) *)

(** [html.NodeType]: the seven exported constants; any other uint32 value
    is kept with its number. *)
Inductive NodeType :=
| ErrorNode
| TextNode
| DocumentNode
| ElementNode
| CommentNode
| DoctypeNode
| RawNode
| OtherNode (code : N).

Global Instance NodeType_eq_dec : EqDecision NodeType.
Proof. solve_decision. Defined.

(** [atom.Atom] is an integer code for one of a fixed table of strings.
    The table is not part of this package; an atom is identified here with
    the string it stands for ([Atom.String]), the zero atom with the empty
    string.  Distinct atoms stand for distinct strings. *)
Definition Atom := string.

Module atom.
Local Open Scope string_scope.
Definition Address : Atom := "address".
Definition Area : Atom := "area".
Definition Article : Atom := "article".
Definition Aside : Atom := "aside".
Definition Base : Atom := "base".
Definition Blockquote : Atom := "blockquote".
Definition Body : Atom := "body".
Definition Br : Atom := "br".
Definition Col : Atom := "col".
Definition Dd : Atom := "dd".
Definition Details : Atom := "details".
Definition Dialog : Atom := "dialog".
Definition Div : Atom := "div".
Definition Dl : Atom := "dl".
Definition Dt : Atom := "dt".
Definition Embed : Atom := "embed".
Definition Fieldset : Atom := "fieldset".
Definition Figcaption : Atom := "figcaption".
Definition Figure : Atom := "figure".
Definition Footer : Atom := "footer".
Definition Form : Atom := "form".
Definition H1 : Atom := "h1".
Definition H2 : Atom := "h2".
Definition H3 : Atom := "h3".
Definition H4 : Atom := "h4".
Definition H5 : Atom := "h5".
Definition H6 : Atom := "h6".
Definition Head : Atom := "head".
Definition Header : Atom := "header".
Definition Hr : Atom := "hr".
Definition Html : Atom := "html".
Definition Iframe : Atom := "iframe".
Definition Img : Atom := "img".
Definition Input : Atom := "input".
Definition Keygen : Atom := "keygen".
Definition Li : Atom := "li".
Definition Link : Atom := "link".
Definition Main : Atom := "main".
Definition Meta : Atom := "meta".
Definition Nav : Atom := "nav".
Definition Noembed : Atom := "noembed".
Definition Noframes : Atom := "noframes".
Definition Noscript : Atom := "noscript".
Definition Ol : Atom := "ol".
Definition P : Atom := "p".
Definition Param : Atom := "param".
Definition Plaintext : Atom := "plaintext".
Definition Pre : Atom := "pre".
Definition Script : Atom := "script".
Definition Section_ : Atom := "section".
Definition Source : Atom := "source".
Definition Style : Atom := "style".
Definition Summary : Atom := "summary".
Definition Table : Atom := "table".
Definition Track : Atom := "track".
Definition Ul : Atom := "ul".
Definition Wbr : Atom := "wbr".
Definition Xmp : Atom := "xmp".
End atom.

(** [html.Attribute] *)
Record Attribute := mkAttr {
  attr_Namespace : string;
  Key : string;
  Val : string
}.

(** A pointer [*html.Node]: [None] is nil, [Some a] the node stored at
    address [a]. *)
Abbreviation ptr := (option nat).

(** [html.Node] *)
Record Node := mkNode {
  Parent : ptr;
  FirstChild : ptr;
  LastChild : ptr;
  PrevSibling : ptr;
  NextSibling : ptr;
  Type_ : NodeType;
  DataAtom : Atom;
  Data : string;
  Namespace : string;
  Attr : list Attribute
}.

(** The store: address [a] holds the node [h !! a].  Allocation appends. *)
Abbreviation heap := (list Node).

Definition alloc (h : heap) (n : Node) : heap * nat := (h ++ [n], length h).

Definition set_FirstChild (p : ptr) (n : Node) : Node :=
  mkNode (Parent n) p (LastChild n) (PrevSibling n) (NextSibling n)
         (Type_ n) (DataAtom n) (Data n) (Namespace n) (Attr n).
Definition set_LastChild (p : ptr) (n : Node) : Node :=
  mkNode (Parent n) (FirstChild n) p (PrevSibling n) (NextSibling n)
         (Type_ n) (DataAtom n) (Data n) (Namespace n) (Attr n).
Definition set_PrevSibling (p : ptr) (n : Node) : Node :=
  mkNode (Parent n) (FirstChild n) (LastChild n) p (NextSibling n)
         (Type_ n) (DataAtom n) (Data n) (Namespace n) (Attr n).
Definition set_NextSibling (p : ptr) (n : Node) : Node :=
  mkNode (Parent n) (FirstChild n) (LastChild n) (PrevSibling n) p
         (Type_ n) (DataAtom n) (Data n) (Namespace n) (Attr n).

(** [node.Type == html.TextNode], read through the store. *)
Definition isText (h : heap) (a : nat) : bool :=
  match h !! a with
  | Some n => bool_decide (Type_ n = TextNode)
  | None => false
  end.

(** ** The renderer's classification sets (indent.go) *)

Definition blockElements : gset Atom :=
  list_to_set [
    atom.Address; atom.Article; atom.Aside; atom.Blockquote; atom.Body;
    atom.Details; atom.Dialog; atom.Dd; atom.Div; atom.Dl; atom.Dt;
    atom.Fieldset; atom.Figcaption; atom.Figure; atom.Footer; atom.Form;
    atom.H1; atom.H2; atom.H3; atom.H4; atom.H5; atom.H6; atom.Head;
    atom.Header; atom.Hr; atom.Html;
    atom.Li; atom.Main; atom.Meta; atom.Nav; atom.Ol; atom.P; atom.Pre;
    atom.Section_; atom.Summary; atom.Table; atom.Ul ].

Definition literalChildElements : gset Atom :=
  list_to_set [
    atom.Iframe; atom.Noembed; atom.Noframes; atom.Noscript; atom.Plaintext;
    atom.Script; atom.Style; atom.Xmp ].

Definition voidElements : gset Atom :=
  list_to_set [
    atom.Area; atom.Base; atom.Br; atom.Col; atom.Embed; atom.Hr;
    atom.Img; atom.Input; atom.Keygen; atom.Link; atom.Meta;
    atom.Param; atom.Source; atom.Track; atom.Wbr ].

(** [s.Has(a)] *)
Definition Has (s : gset Atom) (a : Atom) : bool := bool_decide (a ∈ s).

(** ** Trees in the store *)

(** The shape of a tree of nodes: the address of the root and the shapes
    of its children, left to right. *)
#[local] Unset Elimination Schemes.
Inductive tree := T (a : nat) (ks : list tree).
#[local] Set Elimination Schemes.

Definition root (t : tree) : nat := let 'T a _ := t in a.
Definition kids (t : tree) : list tree := let 'T _ ks := t in ks.

(** [is_tree h t]: in the store [h] the node at [root t] is allocated and
    its child chain, read from [FirstChild] along [NextSibling] until nil,
    runs through the roots of [kids t], each of them a tree again.  Nothing
    is asked of [Parent], [LastChild] or [PrevSibling]. *)
Inductive is_tree (h : heap) : tree → Prop :=
| is_tree_T a n ks :
    h !! a = Some n →
    is_chain h (FirstChild n) ks →
    is_tree h (T a ks)
with is_chain (h : heap) : ptr → list tree → Prop :=
| is_chain_nil : is_chain h None []
| is_chain_cons t ts m :
    is_tree h t →
    h !! root t = Some m →
    is_chain h (NextSibling m) ts →
    is_chain h (Some (root t)) (t :: ts).

Scheme is_tree_mut := Minimality for is_tree Sort Prop
  with is_chain_mut := Minimality for is_chain Sort Prop.
Combined Scheme is_tree_chain_ind from is_tree_mut, is_chain_mut.

(** Fuel that suffices for one recursive descent through [t]: every
    function below spends one unit per call and one per loop test. *)
Fixpoint cost (t : tree) : nat :=
  match t with T _ ks => 2 + list_sum (map cost ks) end.

Definition cost_chain (ts : list tree) : nat := 1 + list_sum (map cost ts).

(** Nodes of [t] in preorder, not going below a Text node: the nodes the
    searches look at. *)
Fixpoint visited (h : heap) (t : tree) : list nat :=
  match t with
  | T a ks => a :: (if isText h a then [] else flat_map (visited h) ks)
  end.

(** All nodes of [t] in preorder. *)
Fixpoint preorder (t : tree) : list nat :=
  match t with T a ks => a :: flat_map preorder ks end.

(** Text nodes have no children, the parser's invariant. *)
Fixpoint text_leaves (h : heap) (t : tree) : bool :=
  match t with
  | T a ks =>
    (negb (isText h a) || bool_decide (length ks = 0)) && forallb (text_leaves h) ks
  end.

(** The nodes [walk] hands to its consumer: a Text node is passed over
    together with whatever hangs below it. *)
Fixpoint walk_seq (h : heap) (t : tree) : list nat :=
  match t with
  | T a ks => if isText h a then [] else a :: flat_map (walk_seq h) ks
  end.


(** Fuel that suffices for every function of the package on the tree [t]. *)
Definition fuel_for (t : tree) : nat := 2 * cost t.

(** ** Find (htree.go) *)

Section Search.
(** The predicate is a Go closure over a node pointer; it may read the
    store but does not write to it. *)
Variable pred : heap → nat → bool.

Fixpoint Find (fuel : nat) (h : heap) (node : nat) : option ptr :=
  match fuel with
  | 0 => None
  | S fuel =>
    if pred h node then Some (Some node)
    else
      n ← h !! node;
      if bool_decide (Type_ n = TextNode) then Some None
      else Find_children fuel h (FirstChild n)
  end
(** [for child := node.FirstChild; child != nil; child = child.NextSibling] *)
with Find_children (fuel : nat) (h : heap) (child : ptr) : option ptr :=
  match fuel with
  | 0 => None
  | S fuel =>
    match child with
    | None => Some None
    | Some c =>
      found ← Find fuel h c;
      match found with
      | Some _ => Some found
      | None => n ← h !! c; Find_children fuel h (NextSibling n)
      end
    end
  end.

(** ** Walk *)

Section Consumer.
(** The loop body that consumes an iterator: a state of its own and a
    [yield] that returns whether to go on. *)
Context {St : Type}.
Variable yield : nat → St → bool * St.

Fixpoint walk (fuel : nat) (h : heap) (node : nat) (s : St) : option (bool * St) :=
  match fuel with
  | 0 => None
  | S fuel =>
    n ← h !! node;
    if bool_decide (Type_ n = TextNode) then Some (true, s)
    else
      let '(more, s) := yield node s in
      if negb more then Some (false, s)
      else walk_children fuel h (FirstChild n) s
  end
with walk_children (fuel : nat) (h : heap) (child : ptr) (s : St) : option (bool * St) :=
  match fuel with
  | 0 => None
  | S fuel =>
    match child with
    | None => Some (true, s)
    | Some c =>
      '(more, s) ← walk fuel h c s;
      if negb more then Some (false, s)
      else n ← h !! c; walk_children fuel h (NextSibling n) s
    end
  end.

(** [Walk(node)] applied to [yield]: the result of [walk] is dropped. *)
Definition Walk (fuel : nat) (h : heap) (node : nat) (s : St) : option St :=
  snd <$> walk fuel h node s.

(** ** FindAll *)

Fixpoint findAll (fuel : nat) (h : heap) (node : nat) (s : St) : option (bool * St) :=
  match fuel with
  | 0 => None
  | S fuel =>
    if pred h node then
      let '(more, s) := yield node s in
      if negb more then Some (false, s)
      else findAllChildren fuel h node s
    else findAllChildren fuel h node s
  end
with findAllChildren (fuel : nat) (h : heap) (node : nat) (s : St) : option (bool * St) :=
  match fuel with
  | 0 => None
  | S fuel =>
    n ← h !! node;
    if bool_decide (Type_ n = TextNode) then Some (true, s)
    else findAll_loop fuel h (FirstChild n) s
  end
with findAll_loop (fuel : nat) (h : heap) (child : ptr) (s : St) : option (bool * St) :=
  match fuel with
  | 0 => None
  | S fuel =>
    match child with
    | None => Some (true, s)
    | Some c =>
      '(more, s) ← findAll fuel h c s;
      if negb more then Some (false, s)
      else n ← h !! c; findAll_loop fuel h (NextSibling n) s
    end
  end.

Definition FindAll (fuel : nat) (h : heap) (node : nat) (s : St) : option St :=
  snd <$> findAll fuel h node s.

Definition FindAllChildren (fuel : nat) (h : heap) (node : nat) (s : St) : option St :=
  snd <$> findAllChildren fuel h node s.

(** Handing the nodes of a list to [yield] one by one until it asks to
    stop: what a consumer sees of a sequence. *)
Fixpoint feed (l : list nat) (s : St) : bool * St :=
  match l with
  | [] => (true, s)
  | a :: l =>
    let '(more, s) := yield a s in
    if negb more then (false, s) else feed l s
  end.
End Consumer.

(** [elPred] *)
Definition elPred (h : heap) (n : nat) : bool :=
  match h !! n with
  | Some nd => bool_decide (Type_ nd = ElementNode) && pred h n
  | None => false
  end.
End Search.

(** The consumer that takes every node and keeps them in order, as
    [for n := range seq { l = append(l, n) }]. *)
Definition collect (a : nat) (l : list nat) : bool * list nat := (true, l ++ [a]).

(** ** Concrete trees *)

Module Fixtures.
Local Open Scope string_scope.

Definition text (data : string) (parent prev next : ptr) : Node :=
  mkNode parent None None prev next TextNode "" data "" [].

Definition element (a : Atom) (parent first last prev next : ptr) : Node :=
  mkNode parent first last prev next ElementNode a a "" [].


(** [<div><div></div></div>] *)
Definition nested_div : heap :=
  [ element atom.Div None (Some 1) (Some 1) None None;
    element atom.Div (Some 0) None None None None ].

(** [<p>hi<br></p>] *)
Definition para : heap :=
  [ element atom.P None (Some 1) (Some 2) None None;
    text "hi" (Some 0) None (Some 2);
    element atom.Br (Some 0) None None (Some 1) None ].
Definition para_tree : tree := T 0 [T 1 []; T 2 []].

(** The tree [html.Parse] builds for [<div>x<br>y</div>]: the document,
    [html] with an empty [head] and a [body], and the [div] in it. *)
Definition div_x_br_y : heap :=
  [ mkNode None (Some 1) (Some 1) None None DocumentNode "" "" "" [];
    element atom.Html (Some 0) (Some 2) (Some 3) None None;
    element atom.Head (Some 1) None None None (Some 3);
    element atom.Body (Some 1) (Some 4) (Some 4) (Some 2) None;
    element atom.Div (Some 3) (Some 5) (Some 7) None None;
    text "x" (Some 4) None (Some 6);
    element atom.Br (Some 4) None None (Some 5) (Some 7);
    text "y" (Some 4) (Some 6) None ].
Definition div_x_br_y_tree : tree :=
  T 0 [T 1 [T 2 []; T 3 [T 4 [T 5 []; T 6 []; T 7 []]]]].

(** [n.DataAtom == a] *)
Definition atom_is (a : Atom) (h : heap) (n : nat) : bool :=
  match h !! n with
  | Some nd => bool_decide (DataAtom nd = a)
  | None => false
  end.

(** [n.Type == html.TextNode] *)
Definition is_text (h : heap) (n : nat) : bool := isText h n.
End Fixtures.

(** ** Statements that are tested against the code *)


(** The three classification sets as the specification words them: no
    tag is in two of them. *)
Definition classification_sets_disjoint : Prop :=
  ∀ a : Atom,
    ¬ (a ∈ blockElements ∧ a ∈ voidElements) ∧
    ¬ (a ∈ blockElements ∧ a ∈ literalChildElements) ∧
    ¬ (a ∈ voidElements ∧ a ∈ literalChildElements).

(** Number of nodes of [t] that are not Text. *)
Definition non_text_count (h : heap) (t : tree) : nat :=
  length (List.filter (λ a, negb (isText h a)) (preorder t)).

(** ** Writers *)

(** A Go [error] value, identified with its message. *)
Definition error := string.

(** The byte ["\n"]. *)
Definition newline : ascii := ascii_of_nat 10.
Definition nl : string := String newline "".

(** [io.Writer]: [Write] gives the writer's next state and the error it
    returns, [None] for nil. *)
Class Writer (W : Type) := Write : W → string → W * option error.

(** [bytes.Buffer]: [Write] appends and returns nil. *)
#[global] Instance Buffer_Writer : Writer string := λ buf p, (buf +:+ p, None).

(** Handing chunks to a writer one [Write] at a time, up to the first
    error. *)
Fixpoint write_all `{Writer W} (chunks : list string) (wr : W) : W * option error :=
  match chunks with
  | [] => (wr, None)
  | c :: chunks =>
    let '(wr, err) := Write wr c in
    match err with
    | Some e => (wr, Some e)
    | None => write_all chunks wr
    end
  end.

(** ** WriteText and Text (htree.go) *)

Section TextExtraction.
(** [html.UnescapeString], from golang.org/x/net/html. *)
Variable UnescapeString : string → string.

Section WithWriter.
Context `{Writer W}.

Fixpoint WriteText (fuel : nat) (h : heap) (wr : W) (node : nat)
  : option (W * option error) :=
  match fuel with
  | 0 => None
  | S fuel =>
    n ← h !! node;
    match Type_ n with
    | TextNode =>
      let '(wr, err) := Write wr (UnescapeString (Data n)) in
      match err with
      | Some e => Some (wr, Some e)
      | None => WriteText_children fuel h wr (FirstChild n)
      end
    | ElementNode =>
      if bool_decide (DataAtom n = atom.Br) then Some (Write wr nl)
      else if bool_decide (DataAtom n = atom.Script)
              || bool_decide (DataAtom n = atom.Style) then Some (wr, None)
      else WriteText_children fuel h wr (FirstChild n)
    | _ => WriteText_children fuel h wr (FirstChild n)
    end
  end
with WriteText_children (fuel : nat) (h : heap) (wr : W) (child : ptr)
  : option (W * option error) :=
  match fuel with
  | 0 => None
  | S fuel =>
    match child with
    | None => Some (wr, None)
    | Some c =>
      '(wr, err) ← WriteText fuel h wr c;
      match err with
      | Some e => Some (wr, Some e)
      | None => n ← h !! c; WriteText_children fuel h wr (NextSibling n)
      end
    end
  end.
End WithWriter.

(** [Text]: WriteText into a fresh [bytes.Buffer]. *)
Definition Text (fuel : nat) (h : heap) (node : nat) : option (string * option error) :=
  WriteText fuel h "" node.

(** The pieces of text of a tree, in the order WriteText writes them. *)
Fixpoint text_chunks (h : heap) (t : tree) : list string :=
  match t with
  | T a ks =>
    match h !! a with
    | None => []
    | Some n =>
      match Type_ n with
      | TextNode => UnescapeString (Data n) :: flat_map (text_chunks h) ks
      | ElementNode =>
        if bool_decide (DataAtom n = atom.Br) then [nl]
        else if bool_decide (DataAtom n = atom.Script)
                || bool_decide (DataAtom n = atom.Style) then []
        else flat_map (text_chunks h) ks
      | _ => flat_map (text_chunks h) ks
      end
    end
  end.
End TextExtraction.

(** Concatenation of a list of strings. *)
Definition join (l : list string) : string := fold_right String.append "" l.

(** ** The indenting renderer (indent.go) *)

(** The [bufio.Writer] that [indentHelper] wraps around the caller's
    writer, as far as the renderer uses it: [WriteByte], and the [Flush]
    that is deferred to the end (its error is dropped there). *)
Class ByteWriter (W : Type) := {
  WriteByte : W → ascii → W * option error;
  Flush : W → W
}.

(** An in-memory writer that takes every byte. *)
#[global] Instance Buffer_ByteWriter : ByteWriter string := {|
  WriteByte buf b := (buf +:+ String b "", None);
  Flush buf := buf
|}.

Record bolwriter (W : Type) := mkBolwriter {
  w : W;
  bol : bool
}.
Arguments mkBolwriter {W}.
Arguments w {W}.
Arguments bol {W}.

(** [strings.Repeat(s, count)]: it panics on a negative count and when the
    length of the result overflows an int. *)
Fixpoint repeat_string (s : string) (n : nat) : string :=
  match n with
  | 0 => ""
  | S n => s +:+ repeat_string s n
  end.

Definition maxInt : Z := 2 ^ 63 - 1.

Definition Repeat (s : string) (count : Z) : option string :=
  if bool_decide (count < 0 ∨ maxInt < Z.of_nat (String.length s) * count)%Z
  then None
  else Some (repeat_string s (Z.to_nat count)).

(** [level+1] on a 64-bit int. *)
Definition wrap_int (z : Z) : Z := ((z + 2 ^ 63) `mod` 2 ^ 64 - 2 ^ 63)%Z.

(** The double-quote byte. *)
Definition quote : string := String (ascii_of_nat 34) "".

(** Last byte of a string. *)
Fixpoint last_byte (s : string) : option ascii :=
  match s with
  | "" => None
  | String c "" => Some c
  | String _ s => last_byte s
  end.

(** A stream of bytes stands at the beginning of a line: it is empty or
    its last byte is a newline. *)
Definition at_bol (s : string) : bool :=
  match last_byte s with
  | None => true
  | Some c => bool_decide (c = newline)
  end.

(** The stream ends with a newline. *)
Definition ends_with_newline (s : string) : bool :=
  bool_decide (last_byte s = Some newline).

Section Renderer.
(** [html.EscapeString] and [html.Render], from golang.org/x/net/html.
    [Render h n] gives the bytes [html.Render] hands to the writer's
    [Write] for the node at [n], and the error of its own that it returns. *)
Variable EscapeString : string → string.
Variable Render : heap → nat → string * option error.

Context `{ByteWriter W}.

(** A step of the renderer: it runs on the [bolwriter] and returns an
    error or nil; [None] is a panic or the end of the fuel. *)
Definition act : Type := bolwriter W → option (bolwriter W * option error).

(** [return nil] *)
Definition skip : act := λ st, Some (st, None).

(** [return err] *)
Definition fail (e : error) : act := λ st, Some (st, Some e).

(** [if err := a; err != nil { return err }; b] *)
Definition and_then (a b : act) : act := λ st,
  match a st with
  | None => None
  | Some (st, Some e) => Some (st, Some e)
  | Some (st, None) => b st
  end.

Notation "a ;;; b" := (and_then a b) (at level 65, right associativity).

(** [func (w *bolwriter) Write(p []byte)] *)
Fixpoint bolwriter_Write (p : string) : act := λ st,
  match p with
  | "" => Some (st, None)
  | String b p =>
    let '(bw, err) := WriteByte (w st) b in
    match err with
    | Some e => Some (mkBolwriter bw (bol st), Some e)
    | None => bolwriter_Write p (mkBolwriter bw (bool_decide (b = newline)))
    end
  end.

(** [fmt.Fprint(w, s)] and [fmt.Fprintf(w, format, ...)] with the formatted
    text [s]: one [Write]. *)
Definition Fprint (s : string) : act := bolwriter_Write s.

(** [func (w *bolwriter) ensureNewline()] *)
Definition ensureNewline : act := λ st,
  if bol st then Some (st, None)
  else
    let '(bw, err) := WriteByte (w st) newline in
    match err with
    | Some e => Some (mkBolwriter bw (bol st), Some e)
    | None => Some (mkBolwriter bw true, None)
    end.

(** [if w.bol { a }] *)
Definition if_bol (a : act) : act := λ st, if bol st then a st else skip st.

(** [html.Render(w, n)]: it reaches the bolwriter through its [Write]. *)
Definition html_Render (h : heap) (n : nat) : act :=
  let '(bytes, err) := Render h n in
  bolwriter_Write bytes ;;;
  match err with
  | Some e => fail e
  | None => skip
  end.

(** [for _, a := range n.Attr] *)
Fixpoint write_attrs (attrs : list Attribute) : act :=
  match attrs with
  | [] => skip
  | a :: attrs =>
    Fprint (" " +:+ Key a) ;;;
    (if bool_decide (Val a ≠ "")
     then Fprint ("=" +:+ quote +:+ EscapeString (Val a) +:+ quote)
     else skip) ;;;
    write_attrs attrs
  end.

(** [indent]; the two loops over [n.ChildNodes()] follow it. *)
Fixpoint indent (fuel : nat) (h : heap) (n : nat) (level : Z) : act :=
  match fuel with
  | 0 => λ _, None
  | S fuel => λ st,
    prefix ← Repeat "  " level;
    nd ← h !! n;
    match Type_ nd with
    | ErrorNode => fail "cannot render error node" st
    | TextNode => (if_bol (Fprint prefix) ;;; html_Render h n) st
    | DoctypeNode => (html_Render h n ;;; ensureNewline) st
    | DocumentNode => indent_document_children fuel h (FirstChild nd) level st
    | ElementNode =>
      let isBlock := Has blockElements (DataAtom nd) in
      ((if isBlock then ensureNewline else skip) ;;;
       if_bol (Fprint prefix) ;;;
       Fprint ("<" +:+ Data nd) ;;;
       write_attrs (Attr nd) ;;;
       Fprint ">" ;;;
       (if isBlock then Fprint nl else skip) ;;;
       if Has voidElements (DataAtom nd) then skip
       else
         indent_element_children fuel h
           (Has literalChildElements (DataAtom nd)) (FirstChild nd) level ;;;
         (if isBlock then ensureNewline ;;; Fprint prefix else skip) ;;;
         if_bol (Fprint prefix) ;;;
         Fprint ("</" +:+ Data nd +:+ ">")) st
    | CommentNode => (if_bol (Fprint prefix) ;;; html_Render h n) st
    | RawNode => Fprint (Data nd) st
    | OtherNode code => fail ("unknown node type " +:+ pretty code) st
    end
  end
(** The loop of the [DocumentNode] case. *)
with indent_document_children (fuel : nat) (h : heap) (child : ptr) (level : Z)
  : act :=
  match fuel with
  | 0 => λ _, None
  | S fuel =>
    match child with
    | None => skip
    | Some c => λ st,
      cn ← h !! c;
      (indent fuel h c level ;;;
       indent_document_children fuel h (NextSibling cn) level) st
    end
  end
(** The loop of the [ElementNode] case; [literal] is
    [literalChildElements.Has(n.DataAtom)]. *)
with indent_element_children (fuel : nat) (h : heap) (literal : bool)
    (child : ptr) (level : Z) : act :=
  match fuel with
  | 0 => λ _, None
  | S fuel =>
    match child with
    | None => skip
    | Some c => λ st,
      cn ← h !! c;
      ((if literal then
          if bool_decide (Type_ cn = TextNode) then Fprint (Data cn)
          else html_Render h c
        else indent fuel h c (wrap_int (level + 1))) ;;;
       indent_element_children fuel h literal (NextSibling cn) level) st
    end
  end.

(** [indentHelper]; [bw] is the fresh [bufio.NewWriter(w)].  The result is
    the writer after the deferred [Flush], and the returned error. *)
Definition indentHelper (fuel : nat) (h : heap) (bw : W) (n : nat) (level : Z)
    (newline_wanted : bool) : option (W * option error) :=
  let bolw := mkBolwriter bw true in
  '(bolw, err) ← indent fuel h n level bolw;
  match err with
  | Some e => Some (Flush (w bolw), Some e)
  | None =>
    if negb newline_wanted || bol bolw then Some (Flush (w bolw), None)
    else
      let '(bw, err) := WriteByte (w bolw) newline in
      Some (Flush bw, err)
  end.

Definition Indent (fuel : nat) (h : heap) (bw : W) (n : nat) (level : Z) :=
  indentHelper fuel h bw n level false.

Definition Indentln (fuel : nat) (h : heap) (bw : W) (n : nat) (level : Z) :=
  indentHelper fuel h bw n level true.
End Renderer.

(** Indentln as the specification words it: whenever the rendering
    succeeds, the output ends with a newline. *)
Definition Indentln_output_ends_with_newline : Prop :=
  ∀ (EscapeString : string → string) (Render : heap → nat → string * option error)
    (fuel : nat) (h : heap) (n : nat) (level : Z) (out : string),
    Indentln EscapeString Render fuel h "" n level = Some (out, None) →
    ends_with_newline out = true.

(** An empty document: a Document node without children. *)
Definition empty_document : heap :=
  [mkNode None None None None None DocumentNode "" "" "" []].

(** A stand-in for [html.Render] on concrete trees: it writes the node's
    [Data] and returns nil. *)
Definition Render_data (h : heap) (n : nat) : string * option error :=
  match h !! n with
  | Some nd => (Data nd, None)
  | None => ("", None)
  end.

(** ** Prune (htree.go) *)

Section Pruning.
Variable pred : heap → nat → bool.

(** The body of [for i, child := range children]: the two assignments to
    [child.PrevSibling] and [child.NextSibling].  [children[j]] panics out
    of range. *)
Definition relink_child (children : list nat) (i child : nat) (h : heap)
  : option heap :=
  prev ← (if bool_decide (i = 0) then Some None
          else c ← children !! (i - 1); Some (Some c));
  next ← (if bool_decide (i = length children - 1) then Some None
          else c ← children !! (i + 1); Some (Some c));
  n ← h !! child;
  Some (<[child := set_NextSibling next (set_PrevSibling prev n)]> h).

(** The loop itself, at index [i] with [rest] still to do. *)
Fixpoint relink (children : list nat) (i : nat) (rest : list nat) (h : heap)
  : option heap :=
  match rest with
  | [] => Some h
  | child :: rest =>
    h ← relink_child children i child h;
    relink children (S i) rest h
  end.

Fixpoint Prune (fuel : nat) (h : heap) (node : nat) : option (heap * ptr) :=
  match fuel with
  | 0 => None
  | S fuel =>
    if pred h node then Some (h, None)
    else
      n ← h !! node;
      '(h, children) ← Prune_children fuel h (FirstChild n) [];
      h ← relink children 0 children h;
      result ← h !! node;
      let result :=
        set_LastChild (last children) (set_FirstChild (head children) result) in
      let '(h, r) := alloc h result in
      Some (h, Some r)
  end
(** [for child := node.FirstChild; child != nil; child = child.NextSibling],
    with the slice [children] built so far. *)
with Prune_children (fuel : nat) (h : heap) (child : ptr) (children : list nat)
  : option (heap * list nat) :=
  match fuel with
  | 0 => None
  | S fuel =>
    match child with
    | None => Some (h, children)
    | Some c =>
      '(h, pruned) ← Prune fuel h c;
      let children :=
        match pruned with
        | None => children
        | Some p => children ++ [p]
        end in
      cn ← h !! c;
      Prune_children fuel h (NextSibling cn) children
    end
  end.
End Pruning.

(** The fields of a node that Prune copies and never sets afterwards. *)
Definition payload (n : Node)
  : ptr * NodeType * Atom * string * string * list Attribute :=
  (Parent n, Type_ n, DataAtom n, Data n, Namespace n, Attr n).

(** The nodes at [ps] form a sibling list: each has its left neighbour in
    [PrevSibling] and its right neighbour in [NextSibling], the first has
    nil to the left and the last nil to the right. *)
Definition linked (h : heap) (ps : list nat) : Prop :=
  ∀ i q, ps !! i = Some q →
    ∃ m, h !! q = Some m ∧
         PrevSibling m = match i with 0 => None | S j => ps !! j end ∧
         NextSibling m = ps !! S i.

(** [pruned_copy pred h0 h' lo t p]: in [h'] the node at [p] is the pruned
    copy of the tree [t] of [h0].  It carries the payload of the root of
    [t]; its children are the copies [ps] of those children of [t] whose
    root does not satisfy [pred], in the same order; [FirstChild] and
    [LastChild] are the two ends of [ps] (nil when [ps] is empty) and [ps]
    is linked as a sibling list.  All the copies below [p] sit at addresses
    from [lo] up to [p], each child after the copies of its elder siblings. *)
Fixpoint pruned_copy (pred : heap → nat → bool) (h0 h' : heap) (lo : nat)
    (t : tree) (p : nat) : Prop :=
  match t with
  | T a ks =>
    ∃ n n' ps,
      h0 !! a = Some n ∧ h' !! p = Some n' ∧
      payload n' = payload n ∧
      FirstChild n' = head ps ∧ LastChild n' = last ps ∧
      linked h' ps ∧
      (fix copies (lo : nat) (ts : list tree) (ps : list nat) : Prop :=
         match ts with
         | [] => ps = []
         | t :: ts =>
           if pred h0 (root t) then copies lo ts ps
           else
             match ps with
             | [] => False
             | q :: ps =>
               lo ≤ q < p ∧ pruned_copy pred h0 h' lo t q ∧ copies (S q) ts ps
             end
         end) lo ks ps
  end.

(** The copies [ps] of the surviving trees among [ts], between [lo] and [hi]. *)
Fixpoint pruned_copies (pred : heap → nat → bool) (h0 h' : heap) (hi lo : nat)
    (ts : list tree) (ps : list nat) : Prop :=
  match ts with
  | [] => ps = []
  | t :: ts =>
    if pred h0 (root t) then pruned_copies pred h0 h' hi lo ts ps
    else
      match ps with
      | [] => False
      | q :: ps =>
        lo ≤ q < hi ∧ pruned_copy pred h0 h' lo t q ∧
        pruned_copies pred h0 h' hi (S q) ts ps
      end
  end.

(** The predicate gives the same answer on the nodes of [h0] however the
    store has grown since: it reads the tree it was handed and nothing that
    Prune allocates. *)
Definition pred_stable (pred : heap → nat → bool) (h0 : heap) : Prop :=
  ∀ k a, a < length h0 → pred (h0 ++ k) a = pred h0 a.

(** [extends h h']: every node of [h] is in [h'] at the same address with
    the same fields. *)
Definition extends (h h' : heap) : Prop :=
  ∀ a n, h !! a = Some n → h' !! a = Some n.

(** What the relinking loop makes of the node at index [i] of [children]. *)
Definition relinked (children : list nat) (i : nat) (n : Node) : Node :=
  set_NextSibling (children !! S i)
    (set_PrevSibling (match i with 0 => None | S j => children !! j end) n).

(** Two versions of a node that differ at most in their sibling links. *)
Definition same_top (m1 m2 : Node) : Prop :=
  payload m2 = payload m1 ∧ FirstChild m2 = FirstChild m1 ∧ LastChild m2 = LastChild m1.

(** The flag of the bolwriter tells whether the stream stands at the
    beginning of a line; [written] gives the bytes a writer has taken. *)
Definition bol_exact {W : Type} (written : W → string) (st : bolwriter W) : Prop :=
  bol st = at_bol (written (w st)).

(** A step that ends without error keeps the flag exact. *)
Definition keeps `{ByteWriter W} (written : W → string) (a : act) : Prop :=
  ∀ st st', bol_exact written st → a st = Some (st', None) → bol_exact written st'.

(** What it takes for a copy to stay a copy when the store changes: below
    it nothing is lost, and the node itself keeps all but its sibling links. *)
Definition copy_stays (pred : heap → nat → bool) (h0 : heap) (t : tree) : Prop :=
  ∀ lo p h1 h2,
    (∀ a n, lo ≤ a < p → h1 !! a = Some n → h2 !! a = Some n) →
    (∀ m1, h1 !! p = Some m1 → ∃ m2, h2 !! p = Some m2 ∧ same_top m1 m2) →
    pruned_copy pred h0 h1 lo t p → pruned_copy pred h0 h2 lo t p.

(** ** FindEl, FindAllEls, FindAllChildEls (htree.go) *)

Definition FindEl (pred : heap → nat → bool) (fuel : nat) (h : heap) (node : nat)
  : option ptr :=
  Find (elPred pred) fuel h node.

Definition FindAllEls {St : Type} (pred : heap → nat → bool)
    (yield : nat → St → bool * St) (fuel : nat) (h : heap) (node : nat) (s : St)
  : option St :=
  FindAll (elPred pred) yield fuel h node s.

Definition FindAllChildEls {St : Type} (pred : heap → nat → bool)
    (yield : nat → St → bool * St) (fuel : nat) (h : heap) (node : nat) (s : St)
  : option St :=
  FindAllChildren (elPred pred) yield fuel h node s.

(** The consumer that keeps the nodes and leaves the loop once it has [n]
    of them, as
    [for x := range seq { l = append(l, x); if len(l) >= n { break } }]. *)
Definition stop_after (n : nat) (a : nat) (l : list nat) : bool * list nat :=
  (bool_decide (S (length l) < n), l ++ [a]).

(** ** ElAttr and ElClassContains (htree.go) *)

(** [for _, attr := range node.Attr] of ElAttr. *)
Fixpoint attr_val (attrs : list Attribute) (key : string) : string :=
  match attrs with
  | [] => ""
  | attr :: attrs =>
    if bool_decide (Key attr = key) then Val attr else attr_val attrs key
  end.

(** [ElAttr(node, key)], on the node [node] points to. *)
Definition ElAttr (node : Node) (key : string) : string :=
  attr_val (Attr node) key.

Section Classes.
(** [strings.Fields], from the Go standard library. *)
Variable Fields : string → list string.

(** [for _, c := range classes] of ElClassContains. *)
Fixpoint has_class (classes : list string) (probe : string) : bool :=
  match classes with
  | [] => false
  | c :: classes =>
    if bool_decide (c = probe) then true else has_class classes probe
  end.

Definition ElClassContains (node : Node) (probe : string) : bool :=
  let classes := Fields (ElAttr node "class") in
  has_class classes probe.
End Classes.

(** A [div] with two attributes of the same key, for the examples:
    [<div id="a" id="b">]. *)
Definition div_two_ids : Node :=
  mkNode None None None None None ElementNode atom.Div "div" ""
    [mkAttr "" "id" "a"; mkAttr "" "id" "b"].

(** [<div class="x">]. *)
Definition div_class_x : Node :=
  mkNode None None None None None ElementNode atom.Div "div" ""
    [mkAttr "" "class" "x"].

(** A stand-in for [strings.Fields] on strings without white space: the
    string itself is its only field, the empty string has none. *)
Definition Fields_word (s : string) : list string :=
  if bool_decide (s = "") then [] else [s].

(** The tree that is left of [t] when every subtree whose root satisfies
    [pred] is taken out below the root. *)
Fixpoint prune_tree (pred : heap → nat → bool) (h0 : heap) (t : tree) : tree :=
  match t with
  | T a ks =>
    T a (flat_map (λ k, if pred h0 (root k) then [] else [prune_tree pred h0 k]) ks)
  end.

(** What a pruned copy is good for: the copy at [p] of the tree [t] of
    [h0] is a tree [t'] of the new store [h'], no larger than [t], with the
    text of the pruned [t]. *)
Definition copy_reads_as (UnescapeString : string → string)
    (pred : heap → nat → bool) (h0 h' : heap) (t : tree) (p : nat) (t' : tree)
  : Prop :=
  root t' = p ∧ is_tree h' t' ∧ cost t' ≤ cost t ∧
  text_chunks UnescapeString h' t' =
  text_chunks UnescapeString h0 (prune_tree pred h0 t).

(** Height of a tree: the number of nodes on its longest branch. *)
Fixpoint depth (t : tree) : nat :=
  match t with T _ ks => S (max_list (map depth ks)) end.

(** A step of the renderer that always comes back, with nil or an error:
    it neither panics nor runs out of fuel. *)
Definition runs `{ByteWriter W} (a : @act W) : Prop := ∀ st, is_Some (a st).


(** The text of the attributes in an opening tag. *)
Fixpoint attrs_text (EscapeString : string → string) (attrs : list Attribute)
  : string :=
  match attrs with
  | [] => ""
  | a :: attrs =>
    (" " +:+ Key a) +:+
    (if bool_decide (Val a ≠ "")
     then "=" +:+ quote +:+ EscapeString (Val a) +:+ quote
     else "") +:+
    attrs_text EscapeString attrs
  end.

(** The opening tag of an element as the renderer lays it out at the
    indentation [prefix], the stream standing at the beginning of a line
    or not ([at_line_start]). *)
Definition open_tag (EscapeString : string → string) (prefix : string)
    (at_line_start : bool) (nd : Node) : string :=
  let isBlock := Has blockElements (DataAtom nd) in
  (if isBlock && negb at_line_start then nl else "") +:+
  (if isBlock || at_line_start then prefix else "") +:+
  ("<" +:+ Data nd) +:+ attrs_text EscapeString (Attr nd) +:+ ">" +:+
  (if isBlock then nl else "").

(** [<br class="x">], alone in a store. *)
Definition br_alone : heap :=
  [mkNode None None None None None ElementNode atom.Br "br" ""
     [mkAttr "" "class" "x"]].

(** A Doctype node, alone in a store. *)
Definition doctype_alone : heap :=
  [mkNode None None None None None DoctypeNode "" "html" "" []].

(** The beginning-of-line flag after the bytes [s] have gone through the
    bolwriter, [b] being the flag before. *)
Definition bol_after (b : bool) (s : string) : bool :=
  match last_byte s with
  | None => b
  | Some c => bool_decide (c = newline)
  end.

(** A step of the renderer that, on the in-memory writer, ends with nil
    and adds exactly [s], wherever the stream stands. *)
Definition emits (a : @act string) (s : string) : Prop :=
  ∀ buf b, a (mkBolwriter buf b) = Some (mkBolwriter (buf +:+ s) (bol_after b s), None).

(** [<script>] with the two Text children [a<b] and [;]. *)
Definition script_two_texts : heap :=
  [ mkNode None (Some 1) (Some 2) None None ElementNode atom.Script "script" "" [];
    mkNode (Some 0) None None None (Some 2) TextNode "" "a<b" "" [];
    mkNode (Some 0) None None (Some 1) None TextNode "" ";" "" [] ].

(** The [Data] of the node at an address, empty when there is none. *)
Definition data_of (h : heap) (a : nat) : string :=
  match h !! a with
  | Some n => Data n
  | None => ""
  end.

(** * Proofs *)

Lemma find_app {A} (f : A → bool) (l1 l2 : list A) :
  List.find f (l1 ++ l2) =
  match List.find f l1 with Some x => Some x | None => List.find f l2 end.
Proof. induction l1 as [|x l1 IH]; simpl; [done|]. by destruct (f x). Qed.

Lemma isText_lookup h a n :
  h !! a = Some n → isText h a = bool_decide (Type_ n = TextNode).
Proof. unfold isText. by intros ->. Qed.

Lemma cost_chain_cons t ts : cost_chain (t :: ts) = cost t + cost_chain ts.
Proof. unfold cost_chain. simpl. lia. Qed.

Lemma cost_T a ks : cost (T a ks) = S (cost_chain ks).
Proof. reflexivity. Qed.

Lemma cost_pos t : 2 ≤ cost t.
Proof. destruct t. rewrite cost_T. unfold cost_chain. lia. Qed.

Lemma cost_chain_pos ts : 1 ≤ cost_chain ts.
Proof. unfold cost_chain. lia. Qed.

#[global] Opaque cost cost_chain.

Section SearchFacts.
Variable pred : heap → nat → bool.
Variable h : heap.

Lemma Find_sound_mut :
  (∀ t, is_tree h t → ∀ fuel, cost t ≤ fuel →
     Find pred fuel h (root t) = Some (List.find (pred h) (visited h t))) ∧
  (∀ p ts, is_chain h p ts → ∀ fuel, cost_chain ts ≤ fuel →
     Find_children pred fuel h p = Some (List.find (pred h) (flat_map (visited h) ts))).
Proof.
  apply is_tree_chain_ind.
  - intros a n ks Ha _ IH fuel Hf. rewrite cost_T in Hf.
    destruct fuel as [|fuel]; [lia|]. simpl.
    destruct (pred h a); [done|].
    rewrite Ha, (isText_lookup _ _ _ Ha). simpl.
    case_bool_decide; [done|]. apply IH. lia.
  - intros fuel Hf. pose proof (cost_chain_pos []).
    destruct fuel; [lia|]. done.
  - intros t ts m _ IHt Hm _ IHts fuel Hf. rewrite cost_chain_cons in Hf.
    pose proof (cost_pos t). pose proof (cost_chain_pos ts).
    destruct fuel as [|fuel]; [lia|]. simpl.
    rewrite IHt by lia. simpl. rewrite find_app.
    destruct (List.find (pred h) (visited h t)); [done|].
    rewrite Hm. simpl. apply IHts. lia.
Qed.

Context {St : Type}.
Variable yield : nat → St → bool * St.

Lemma feed_app l1 l2 s :
  feed yield (l1 ++ l2) s =
  let '(more, s') := feed yield l1 s in
  if negb more then (false, s') else feed yield l2 s'.
Proof.
  revert s. induction l1 as [|a l1 IH]; intros s; simpl; [done|].
  destruct (yield a s) as [[] s']; simpl; [apply IH|done].
Qed.

Lemma walk_sound_mut :
  (∀ t, is_tree h t → ∀ fuel s, cost t ≤ fuel →
     walk yield fuel h (root t) s = Some (feed yield (walk_seq h t) s)) ∧
  (∀ p ts, is_chain h p ts → ∀ fuel s, cost_chain ts ≤ fuel →
     walk_children yield fuel h p s =
     Some (feed yield (flat_map (walk_seq h) ts) s)).
Proof.
  apply is_tree_chain_ind.
  - intros a n ks Ha _ IH fuel s Hf. rewrite cost_T in Hf.
    destruct fuel as [|fuel]; [lia|]. simpl.
    rewrite Ha, (isText_lookup _ _ _ Ha). simpl.
    case_bool_decide; [done|]. simpl.
    destruct (yield a s) as [[] s']; simpl; [|done]. apply IH. lia.
  - intros fuel s Hf. pose proof (cost_chain_pos []).
    destruct fuel; [lia|]. done.
  - intros t ts m _ IHt Hm _ IHts fuel s Hf. rewrite cost_chain_cons in Hf.
    pose proof (cost_pos t). pose proof (cost_chain_pos ts).
    destruct fuel as [|fuel]; [lia|]. simpl.
    rewrite IHt by lia. simpl. rewrite feed_app.
    destruct (feed yield (walk_seq h t) s) as [[] s']; simpl; [|done].
    rewrite Hm. simpl. apply IHts. lia.
Qed.

Lemma findAll_sound_mut :
  (∀ t, is_tree h t → ∀ fuel s, 2 * cost t ≤ fuel →
     findAll pred yield fuel h (root t) s =
     Some (feed yield (List.filter (pred h) (visited h t)) s)) ∧
  (∀ p ts, is_chain h p ts → ∀ fuel s, 2 * cost_chain ts ≤ fuel →
     findAll_loop pred yield fuel h p s =
     Some (feed yield (List.filter (pred h) (flat_map (visited h) ts)) s)).
Proof.
  apply is_tree_chain_ind.
  - intros a n ks Ha _ IH fuel s Hf. rewrite cost_T in Hf.
    pose proof (cost_chain_pos ks).
    assert (Hkids : ∀ s, findAllChildren pred yield (fuel - 1) h a s =
              Some (feed yield (List.filter (pred h)
                (if isText h a then [] else flat_map (visited h) ks)) s)).
    { intros s0. destruct fuel as [|[|fuel]]; [lia..|].
      replace (S (S fuel) - 1) with (S fuel) by lia. simpl.
      rewrite Ha, (isText_lookup _ _ _ Ha). simpl.
      case_bool_decide; [done|]. apply IH. lia. }
    destruct fuel as [|fuel]; [lia|].
    replace (S fuel - 1) with fuel in Hkids by lia.
    simpl. destruct (pred h a); simpl.
    + destruct (yield a s) as [[] s']; simpl; [apply Hkids|done].
    + apply Hkids.
  - intros fuel s Hf. pose proof (cost_chain_pos []).
    destruct fuel; [lia|]. done.
  - intros t ts m _ IHt Hm _ IHts fuel s Hf. rewrite cost_chain_cons in Hf.
    pose proof (cost_pos t). pose proof (cost_chain_pos ts).
    destruct fuel as [|fuel]; [lia|]. simpl.
    rewrite IHt by lia. simpl. rewrite List.filter_app, feed_app.
    destruct (feed yield (List.filter (pred h) (visited h t)) s) as [[] s'];
      simpl; [|done].
    rewrite Hm. simpl. apply IHts. lia.
Qed.
End SearchFacts.

Lemma feed_collect l acc : feed collect l acc = (true, acc ++ l).
Proof.
  revert acc. induction l as [|a l IH]; intros acc; simpl.
  - by rewrite app_nil_r.
  - rewrite IH. by rewrite <- app_assoc.
Qed.

Lemma walk_seq_filter h t :
  walk_seq h t = List.filter (λ a, negb (isText h a)) (visited h t).
Proof.
  revert t. fix IH 1. intros [a ks]. simpl.
  destruct (isText h a); simpl; [done|]. f_equal.
  induction ks as [|k ks IHks]; simpl; [done|].
  by rewrite List.filter_app, <- IH, IHks.
Qed.


Lemma text_leaves_visited h t : text_leaves h t = true → visited h t = preorder t.
Proof.
  revert t. fix IH 1. intros [a ks]. simpl. intros Hl.
  apply andb_prop in Hl as [Ha Hks]. f_equal.
  destruct (isText h a); simpl in Ha.
  - apply bool_decide_eq_true in Ha. by destruct ks.
  - clear Ha. induction ks as [|k ks IHks]; simpl in *; [done|].
    apply andb_prop in Hks as [Hk Hks]. by rewrite IH, IHks.
Qed.

Lemma cost_le_fuel_for t : cost t ≤ fuel_for t.
Proof. unfold fuel_for. lia. Qed.

Lemma find_first {A} (f : A → bool) (l : list A) :
  match List.find f l with
  | Some a => f a = true ∧ ∃ l1 l2, l = l1 ++ a :: l2 ∧ Forall (λ b, f b = false) l1
  | None => Forall (λ b, f b = false) l
  end.
Proof.
  induction l as [|x l IH]; simpl; [by constructor|].
  destruct (f x) eqn:Hx.
  - split; [done|]. by exists [], l.
  - destruct (List.find f l) as [a|].
    + destruct IH as (Ha & l1 & l2 & -> & Hl1). split; [done|].
      exists (x :: l1), l2. split; [done|]. by constructor.
    + by constructor.
Qed.

Ltac is_tree_tac :=
  repeat first
    [ apply is_chain_nil
    | eapply is_tree_T; [reflexivity|]
    | eapply (is_chain_cons _ (T _ _)); [|reflexivity|] ].

Lemma para_is_tree : is_tree Fixtures.para Fixtures.para_tree.
Proof. unfold Fixtures.para_tree. is_tree_tac. Defined.

Lemma div_x_br_y_is_tree : is_tree Fixtures.div_x_br_y Fixtures.div_x_br_y_tree.
Proof. unfold Fixtures.div_x_br_y_tree. is_tree_tac. Defined.


Lemma nested_div_is_tree : is_tree Fixtures.nested_div (T 0 [T 1 []]).
Proof. is_tree_tac. Defined.

(** ** The classification sets *)

Lemma block_void_common : blockElements ∩ voidElements = {[atom.Hr; atom.Meta]}.
Proof. apply (bool_decide_unpack _). vm_compute. exact I. Qed.

Lemma block_literal_common : blockElements ∩ literalChildElements = ∅.
Proof. apply (bool_decide_unpack _). vm_compute. exact I. Qed.

Lemma void_literal_common : voidElements ∩ literalChildElements = ∅.
Proof. apply (bool_decide_unpack _). vm_compute. exact I. Qed.

(** C2, counterexample: [hr] is both a block tag and a void tag, so the
    three sets are not pairwise disjoint. *)
Lemma classification_sets_overlap : ¬ classification_sets_disjoint.
Proof.
  intros Hd. destruct (Hd atom.Hr) as [Hbv _]. apply Hbv.
  split; apply (bool_decide_unpack _); vm_compute; exact I.
Qed.

(** C2, as the code has it: the literal-content set shares no tag with the
    block set or the void set, and the block and void sets share exactly
    [hr] and [meta]. *)
Theorem classification_sets_overlap_only_hr_meta (a : Atom) :
  ¬ (a ∈ blockElements ∧ a ∈ literalChildElements) ∧
  ¬ (a ∈ voidElements ∧ a ∈ literalChildElements) ∧
  (a ∈ blockElements ∧ a ∈ voidElements ↔ a = atom.Hr ∨ a = atom.Meta).
Proof.
  split; [|split; [|split]].
  - intros [Hb Hl]. apply (not_elem_of_empty (C:=gset Atom) a).
    rewrite <- block_literal_common. by apply elem_of_intersection.
  - intros [Hv Hl]. apply (not_elem_of_empty (C:=gset Atom) a).
    rewrite <- void_literal_common. by apply elem_of_intersection.
  - intros [Hb Hv].
    assert (Hin : a ∈ blockElements ∩ voidElements) by by apply elem_of_intersection.
    rewrite block_void_common in Hin.
    apply elem_of_union in Hin as [Hin|Hin]; apply elem_of_singleton in Hin; auto.
  - intros [-> | ->]; split; apply (bool_decide_unpack _); vm_compute; exact I.
Qed.

(** ** Walk *)

Lemma Walk_collect (h : heap) (t : tree) (fuel : nat) :
  is_tree h t → fuel_for t ≤ fuel →
  Walk collect fuel h (root t) [] = Some (walk_seq h t).
Proof.
  intros Ht Hf. pose proof (cost_le_fuel_for t). unfold Walk.
  rewrite (proj1 (walk_sound_mut h collect) t Ht) by lia.
  by rewrite feed_collect.
Qed.




(** C9: on a tree whose Text nodes have no children, Walk yields as many
    nodes as the tree has nodes that are not Text. *)
Theorem Walk_count_non_text (h : heap) (t : tree) (fuel : nat) :
  is_tree h t → text_leaves h t = true → fuel_for t ≤ fuel →
  ∃ l, Walk collect fuel h (root t) [] = Some l ∧ length l = non_text_count h t.
Proof.
  intros Ht Hl Hf. exists (walk_seq h t).
  split; [by apply Walk_collect|].
  unfold non_text_count.
  by rewrite walk_seq_filter, (text_leaves_visited _ _ Hl).
Qed.

Lemma Walk_count_non_text_witness :
  ∃ l, Walk collect 20 Fixtures.para 0 [] = Some l ∧ length l = 2.
Proof.
  apply (Walk_count_non_text Fixtures.para Fixtures.para_tree 20 para_is_tree).
  - reflexivity.
  - vm_compute; lia.
Defined.

(** ** Find *)

(** C3: Find returns the first node, in preorder, that satisfies the
    predicate, and nil when there is none; the root is tested first, no
    earlier node of the order satisfies the predicate, and below a Text
    node (the root in particular) nothing is examined.  When Text nodes
    are leaves the order is the full preorder of the tree. *)
Theorem Find_first_match (pred : heap → nat → bool) (h : heap) (t : tree) (fuel : nat) :
  is_tree h t → fuel_for t ≤ fuel →
  ∃ r : ptr,
    Find pred fuel h (root t) = Some r ∧
    r = List.find (pred h) (visited h t) ∧
    (pred h (root t) = true → r = Some (root t)) ∧
    match r with
    | Some a =>
        pred h a = true ∧
        ∃ before after, visited h t = before ++ a :: after ∧
                        Forall (λ b, pred h b = false) before
    | None => Forall (λ b, pred h b = false) (visited h t)
    end ∧
    (isText h (root t) = true → visited h t = [root t]) ∧
    (text_leaves h t = true → visited h t = preorder t).
Proof.
  intros Ht Hf. pose proof (cost_le_fuel_for t).
  exists (List.find (pred h) (visited h t)).
  split; [apply (Find_sound_mut pred h); [done|lia]|].
  split; [done|]. split; [|split; [apply find_first|split]].
  - destruct t as [a ks]. simpl. by intros ->.
  - destruct t as [a ks]. simpl. by intros ->.
  - apply text_leaves_visited.
Qed.

Lemma Find_first_match_witness :
  Find (Fixtures.atom_is atom.Br) 20 Fixtures.para 0 = Some (Some 2).
Proof.
  destruct (Find_first_match (Fixtures.atom_is atom.Br) Fixtures.para
              Fixtures.para_tree 20 para_is_tree) as (r & Hr & -> & _).
  - vm_compute; lia.
  - exact Hr.
Defined.

(** ** FindAll *)

(** C4, the code at the failing input: in [<div><div></div></div>] with
    the predicate "is a div", FindAll yields the outer div and then goes
    on into it and yields the inner one as well. *)
Theorem FindAll_enters_matched_subtree :
  is_tree Fixtures.nested_div (T 0 [T 1 []]) ∧
  Fixtures.atom_is atom.Div Fixtures.nested_div 0 = true ∧
  FindAll (Fixtures.atom_is atom.Div) collect 20 Fixtures.nested_div 0 [] = Some [0; 1].
Proof. split; [exact nested_div_is_tree|]. split; reflexivity. Qed.

(** C10: FindAll tests every node it visits, whatever its kind, and yields
    those that pass in visiting order; a Text node that passes is yielded
    and only the descent below it is left out.  Walk yields no Text node.
    In [<p>hi<br></p>] the Text node passes "is Text" and FindAll yields it. *)
Theorem FindAll_tests_every_visited_node
    (pred : heap → nat → bool) (h : heap) (t : tree) (fuel : nat) :
  is_tree h t → fuel_for t ≤ fuel →
  (∀ (St : Type) (yield : nat → St → bool * St) (s : St),
     findAll pred yield fuel h (root t) s =
     Some (feed yield (List.filter (pred h) (visited h t)) s)) ∧
  (∃ l, FindAll pred collect fuel h (root t) [] = Some l ∧
        ∀ a, a ∈ l ↔ a ∈ visited h t ∧ pred h a = true) ∧
  (∃ w, Walk collect fuel h (root t) [] = Some w ∧
        ∀ a, a ∈ w → isText h a = false) ∧
  (isText Fixtures.para 1 = true ∧
   FindAll Fixtures.is_text collect 20 Fixtures.para 0 [] = Some [1] ∧
   Walk collect 20 Fixtures.para 0 [] = Some [0; 2]).
Proof.
  intros Ht Hf.
  assert (HA : ∀ (St : Type) (yield : nat → St → bool * St) (s : St),
     findAll pred yield fuel h (root t) s =
     Some (feed yield (List.filter (pred h) (visited h t)) s)).
  { intros St yield s. by apply (findAll_sound_mut pred h yield). }
  split; [exact HA|]. split; [|split].
  - exists (List.filter (pred h) (visited h t)). split.
    + unfold FindAll. rewrite HA, feed_collect. done.
    + intros a. rewrite !list_elem_of_In. apply List.filter_In.
  - exists (walk_seq h t). split; [by apply Walk_collect|].
    intros a. rewrite walk_seq_filter, list_elem_of_In, List.filter_In.
    intros [_ Ha]. by apply negb_true_iff.
  - repeat split; reflexivity.
Qed.

Lemma FindAll_tests_every_visited_node_witness :
  ∃ l, FindAll Fixtures.is_text collect 20 Fixtures.para 0 [] = Some l ∧
       ∀ a, a ∈ l ↔ a ∈ visited Fixtures.para Fixtures.para_tree ∧
                    Fixtures.is_text Fixtures.para a = true.
Proof.
  destruct (FindAll_tests_every_visited_node Fixtures.is_text Fixtures.para
              Fixtures.para_tree 20 para_is_tree) as (_ & H & _).
  - vm_compute; lia.
  - exact H.
Defined.

(** ** WriteText and Text *)

Lemma string_app_cons (c : ascii) (s1 s2 : string) :
  String c s1 +:+ s2 = String c (s1 +:+ s2).
Proof. reflexivity. Qed.

Lemma string_app_nil_r (s : string) : s +:+ "" = s.
Proof.
  induction s as [|c s IH]; [done|]. rewrite string_app_cons. congruence.
Qed.

Lemma string_app_assoc (s1 s2 s3 : string) : (s1 +:+ s2) +:+ s3 = s1 +:+ s2 +:+ s3.
Proof.
  induction s1 as [|c s1 IH]; [done|]. rewrite !string_app_cons. congruence.
Qed.

Lemma write_all_cons `{Writer W} (c : string) (l : list string) (wr : W) :
  write_all (c :: l) wr =
  let '(wr', err) := Write wr c in
  match err with
  | Some e => (wr', Some e)
  | None => write_all l wr'
  end.
Proof. reflexivity. Qed.

Lemma write_all_app `{Writer W} (l1 l2 : list string) (wr : W) :
  write_all (l1 ++ l2) wr =
  let '(wr', err) := write_all l1 wr in
  match err with
  | Some e => (wr', Some e)
  | None => write_all l2 wr'
  end.
Proof.
  revert wr. induction l1 as [|c l1 IH]; intros wr; [done|].
  rewrite <- app_comm_cons, !write_all_cons.
  destruct (Write wr c) as [wr' [e|]]; [done|]. apply IH.
Qed.

Lemma write_all_buffer (l : list string) (buf : string) :
  write_all l buf = (buf +:+ join l, None).
Proof.
  revert buf. induction l as [|c l IH]; intros buf.
  - simpl. by rewrite string_app_nil_r.
  - rewrite write_all_cons. change (Write buf c) with (buf +:+ c, @None error).
    cbv iota beta. rewrite IH. by rewrite string_app_assoc.
Qed.

Section TextFacts.
Variable UnescapeString : string → string.
Context `{Writer W}.
Variable h : heap.

Lemma WriteText_sound_mut :
  (∀ t, is_tree h t → ∀ fuel (wr : W), cost t ≤ fuel →
     WriteText UnescapeString fuel h wr (root t) =
     Some (write_all (text_chunks UnescapeString h t) wr)) ∧
  (∀ p ts, is_chain h p ts → ∀ fuel (wr : W), cost_chain ts ≤ fuel →
     WriteText_children UnescapeString fuel h wr p =
     Some (write_all (flat_map (text_chunks UnescapeString h) ts) wr)).
Proof.
  apply is_tree_chain_ind.
  - intros a n ks Ha _ IH fuel wr Hf. rewrite cost_T in Hf.
    destruct fuel as [|fuel]; [lia|]. simpl. rewrite Ha. simpl.
    destruct (Type_ n); try (apply IH; lia).
    + rewrite write_all_cons.
      destruct (Write wr (UnescapeString (Data n))) as [wr' [e|]]; [done|].
      apply IH. lia.
    + case_bool_decide.
      { rewrite write_all_cons. by destruct (Write wr nl) as [wr' [e|]]. }
      destruct (bool_decide (DataAtom n = atom.Script) ||
                bool_decide (DataAtom n = atom.Style)); [done|].
      apply IH. lia.
  - intros fuel wr Hf. pose proof (cost_chain_pos []).
    destruct fuel; [lia|]. done.
  - intros t ts m _ IHt Hm _ IHts fuel wr Hf. rewrite cost_chain_cons in Hf.
    pose proof (cost_pos t). pose proof (cost_chain_pos ts).
    destruct fuel as [|fuel]; [lia|]. simpl.
    rewrite IHt by lia. simpl. rewrite write_all_app.
    destruct (write_all (text_chunks UnescapeString h t) wr) as [wr' [e|]];
      simpl; [done|].
    rewrite Hm. simpl. apply IHts. lia.
Qed.
End TextFacts.

(** C7: WriteText writes, in preorder and left to right, the decoded data
    of each Text node, one newline for a [br] element without entering it,
    nothing for a [script] or [style] element and what is below it, and for
    any other node what its children give; a failing [Write] ends it with
    that error.  Text is the concatenation of these pieces, and on the tree
    parsed from [<div>x<br>y</div>] it is ["x\ny"]. *)
Theorem WriteText_preorder_stream
    (UnescapeString : string → string) (h : heap) (t : tree) (fuel : nat) :
  is_tree h t → fuel_for t ≤ fuel →
  (∀ (W : Type) (WW : Writer W) (wr : W),
     WriteText UnescapeString fuel h wr (root t) =
     Some (write_all (text_chunks UnescapeString h t) wr)) ∧
  Text UnescapeString fuel h (root t) =
    Some (join (text_chunks UnescapeString h t), None) ∧
  (UnescapeString "x" = "x" → UnescapeString "y" = "y" →
   Text UnescapeString 40 Fixtures.div_x_br_y 0 = Some ("x" +:+ nl +:+ "y", None)).
Proof.
  intros Ht Hf. pose proof (cost_le_fuel_for t).
  assert (HW : ∀ (W : Type) (WW : Writer W) (wr : W),
     WriteText UnescapeString fuel h wr (root t) =
     Some (write_all (text_chunks UnescapeString h t) wr)).
  { intros W WW wr. apply WriteText_sound_mut; [done|lia]. }
  split; [exact HW|]. split.
  - unfold Text. by rewrite HW, write_all_buffer.
  - intros Hx Hy. unfold Text.
    pose proof (proj1 (WriteText_sound_mut UnescapeString Fixtures.div_x_br_y)
                  _ div_x_br_y_is_tree 40 "") as Hd.
    simpl root in Hd. rewrite Hd by (vm_compute; lia).
    rewrite write_all_buffer. simpl. by rewrite Hx, Hy.
Qed.

Lemma WriteText_preorder_stream_witness :
  Text (λ s, s) 40 Fixtures.div_x_br_y 0 = Some ("x" +:+ nl +:+ "y", None).
Proof.
  destruct (WriteText_preorder_stream (λ s, s) Fixtures.div_x_br_y
              Fixtures.div_x_br_y_tree 40 div_x_br_y_is_tree) as (_ & _ & H).
  - vm_compute; lia.
  - apply H; reflexivity.
Defined.

(** ** The indenting renderer *)

Lemma last_byte_snoc (s : string) (b : ascii) : last_byte (s +:+ String b "") = Some b.
Proof.
  induction s as [|c s IH]; [done|]. rewrite string_app_cons.
  simpl. rewrite IH. by destruct (s +:+ String b "").
Qed.

Lemma at_bol_snoc (s : string) (b : ascii) :
  at_bol (s +:+ String b "") = bool_decide (b = newline).
Proof. unfold at_bol. by rewrite last_byte_snoc. Qed.

Lemma last_byte_None (s : string) : last_byte s = None → s = "".
Proof.
  induction s as [|c s IH]; [done|]. simpl.
  destruct s as [|c' s]; [done|]. intros Hl. by specialize (IH Hl).
Qed.

Lemma at_bol_ends_with_newline (s : string) :
  at_bol s = true → s ≠ "" → ends_with_newline s = true.
Proof.
  unfold at_bol, ends_with_newline. intros Hb Hs.
  destruct (last_byte s) as [c|] eqn:Hl.
  - apply bool_decide_eq_true in Hb. subst c. by apply bool_decide_eq_true.
  - by apply last_byte_None in Hl.
Qed.

Section RendererFacts.
Variable EscapeString : string → string.
Variable Render : heap → nat → string * option error.
Context `{ByteWriter W}.

(** The bytes a writer has taken so far. *)
Variable written : W → string.
Hypothesis written_WriteByte :
  ∀ bw b bw', WriteByte bw b = (bw', None) → written bw' = written bw +:+ String b "".

Local Notation "a ;;; b" := (and_then a b) (at level 65, right associativity).

Lemma keeps_skip : keeps written skip.
Proof. intros st st' Hi [= <-]. done. Qed.

Lemma keeps_fail e : keeps written (fail e).
Proof. intros st st' Hi [=]. Qed.

Lemma keeps_and_then a b : keeps written a → keeps written b → keeps written (a ;;; b).
Proof.
  intros Ha Hb st st' Hi. unfold and_then.
  destruct (a st) as [[st1 [e|]]|] eqn:Hst; [done| |done].
  intros Hst'. eapply Hb; [|done]. by eapply Ha.
Qed.

Lemma keeps_if (c : bool) a b : keeps written a → keeps written b → keeps written (if c then a else b).
Proof. by destruct c. Qed.

Lemma keeps_if_bol a : keeps written a → keeps written (if_bol a).
Proof.
  intros Ha st st' Hi. unfold if_bol. destruct (bol st); [by apply Ha|].
  by apply keeps_skip.
Qed.

Lemma keeps_bolwriter_Write p : keeps written (bolwriter_Write p).
Proof.
  induction p as [|b p IH]; intros st st' Hi; simpl.
  - by intros [= <-].
  - destruct (WriteByte (w st) b) as [bw [e|]] eqn:Hw; [done|].
    apply IH. unfold bol_exact. simpl.
    by rewrite (written_WriteByte _ _ _ Hw), at_bol_snoc.
Qed.

Lemma keeps_Fprint s : keeps written (Fprint s).
Proof. apply keeps_bolwriter_Write. Qed.

Lemma keeps_ensureNewline : keeps written ensureNewline.
Proof.
  intros st st' Hi. unfold ensureNewline.
  destruct (bol st); [by intros [= <-]|].
  destruct (WriteByte (w st) newline) as [bw [e|]] eqn:Hw; [done|].
  intros [= <-]. unfold bol_exact. simpl.
  rewrite (written_WriteByte _ _ _ Hw), at_bol_snoc. by rewrite bool_decide_eq_true_2.
Qed.

Lemma keeps_html_Render h n : keeps written (html_Render Render h n).
Proof.
  unfold html_Render. destruct (Render h n) as [bytes [e|]];
    apply keeps_and_then;
    auto using keeps_bolwriter_Write, keeps_fail, keeps_skip.
Qed.

Lemma keeps_write_attrs attrs : keeps written (write_attrs EscapeString attrs).
Proof.
  induction attrs as [|a attrs IH]; cbn [write_attrs]; [apply keeps_skip|].
  apply keeps_and_then; [apply keeps_Fprint|].
  apply keeps_and_then; [|exact IH].
  apply keeps_if; [apply keeps_Fprint|apply keeps_skip].
Qed.

Ltac keeps_step :=
  lazymatch goal with
  | |- keeps written (and_then _ _) => apply keeps_and_then
  | |- keeps written (if _ then _ else _) => apply keeps_if
  | |- keeps written (if_bol _) => apply keeps_if_bol
  | |- keeps written (Fprint _) => apply keeps_Fprint
  | |- keeps written ensureNewline => apply keeps_ensureNewline
  | |- keeps written skip => apply keeps_skip
  | |- keeps written (fail _) => apply keeps_fail
  | |- keeps written (html_Render _ _ _) => apply keeps_html_Render
  | |- keeps written (write_attrs _ _) => apply keeps_write_attrs
  | |- keeps written _ => solve [auto]
  end.

#[local] Arguments Fprint : simpl never.
#[local] Arguments ensureNewline : simpl never.
#[local] Arguments html_Render : simpl never.
#[local] Arguments write_attrs : simpl never.
#[local] Arguments if_bol : simpl never.
#[local] Arguments and_then : simpl never.
#[local] Arguments skip : simpl never.
#[local] Arguments fail : simpl never.
#[local] Arguments Has : simpl never.

Ltac fold_keeps st st' Hi :=
  lazymatch goal with
  | |- ?a st = Some (st', None) → _ => revert st st' Hi; change (keeps written a)
  end.

Lemma keeps_indent fuel :
  (∀ h n level, keeps written (indent EscapeString Render fuel h n level)) ∧
  (∀ h child level,
     keeps written (indent_document_children EscapeString Render fuel h child level)) ∧
  (∀ h literal child level,
     keeps written (indent_element_children EscapeString Render fuel h literal child level)).
Proof.
  induction fuel as [|fuel (IHn & IHd & IHe)]; [by repeat split|].
  split; [|split].
  - intros h n level st st' Hi. simpl.
    destruct (Repeat "  " level) as [prefix|]; [|done]. simpl.
    destruct (h !! n) as [nd|]; [|done]. simpl.
    destruct (Type_ nd); fold_keeps st st' Hi; repeat keeps_step.
  - intros h [c|] level; simpl; [|apply keeps_skip].
    intros st st' Hi. destruct (h !! c) as [cn|]; [|done]. simpl.
    fold_keeps st st' Hi; repeat keeps_step.
  - intros h literal [c|] level; simpl; [|apply keeps_skip].
    intros st st' Hi. destruct (h !! c) as [cn|]; [|done]. simpl.
    fold_keeps st st' Hi; repeat keeps_step.
Qed.
End RendererFacts.

Lemma at_bol_iff (s : string) :
  at_bol s = true ↔ s = "" ∨ ends_with_newline s = true.
Proof.
  split.
  - intros Hb. destruct s as [|c s]; [by left|].
    right. by apply at_bol_ends_with_newline.
  - intros [->|He]; [done|]. unfold ends_with_newline in He.
    apply bool_decide_eq_true in He. unfold at_bol. rewrite He.
    by apply bool_decide_eq_true.
Qed.

(** The renderer on [<p>hi<br></p>] at level 0, into a buffer. *)
Example Indentln_para :
  Indentln (λ s, s) Render_data 40 Fixtures.para "" 0 0%Z =
  Some ("<p>" +:+ nl +:+ "  hi<br>" +:+ nl +:+ "</p>" +:+ nl, None).
Proof. reflexivity. Qed.

Example Indent_para :
  Indent (λ s, s) Render_data 40 Fixtures.para "" 0 0%Z =
  Some ("<p>" +:+ nl +:+ "  hi<br>" +:+ nl +:+ "</p>", None).
Proof. reflexivity. Qed.

(** C8: Indentln does not keep the promise of its doc comment (it
    [ensures the output ends with a newline]) on every input: the
    rendering of an empty document succeeds and writes nothing, Indentln
    adds nothing to it, and its output, being empty, does not end with a
    newline. *)
Lemma Indentln_empty_document : ¬ Indentln_output_ends_with_newline.
Proof.
  intros Hc.
  specialize (Hc (λ s, s) Render_data 5 empty_document 0 0%Z "" eq_refl).
  vm_compute in Hc. discriminate Hc.
Qed.

(** What Indent and Indentln write when the rendering succeeds: Indent
    leaves the stream as the recursion produced it, and Indentln writes one
    more newline exactly when that stream is not empty and its last byte is
    not a newline.  The output of Indentln ends with a newline whenever it
    is not empty: the empty rendering is the only one on which the promise
    of the doc comment fails. *)
Theorem Indentln_newline_unless_at_bol
    {W : Type} {BW : ByteWriter W} (written : W → string)
    (EscapeString : string → string) (Render : heap → nat → string * option error)
    (fuel : nat) (h : heap) (bw0 : W) (n : nat) (level : Z) (st : bolwriter W) :
  (∀ bw b bw', WriteByte bw b = (bw', None) →
               written bw' = written bw +:+ String b "") →
  (∀ bw, written (Flush bw) = written bw) →
  written bw0 = "" →
  indent EscapeString Render fuel h n level (mkBolwriter bw0 true) = Some (st, None) →
  let stream := written (w st) in
  Indent EscapeString Render fuel h bw0 n level = Some (Flush (w st), None) ∧
  written (Flush (w st)) = stream ∧
  bol st = at_bol stream ∧
  (at_bol stream = true ↔ stream = "" ∨ ends_with_newline stream = true) ∧
  (at_bol stream = true →
   Indentln EscapeString Render fuel h bw0 n level = Some (Flush (w st), None)) ∧
  (at_bol stream = false → ∀ bw' err,
   WriteByte (w st) newline = (bw', err) →
   Indentln EscapeString Render fuel h bw0 n level = Some (Flush bw', err) ∧
   (err = None → written (Flush bw') = stream +:+ nl)) ∧
  (∀ out, Indentln EscapeString Render fuel h bw0 n level = Some (out, None) →
   written out = stream +:+ (if at_bol stream then "" else nl) ∧
   (written out ≠ "" → ends_with_newline (written out) = true)).
Proof.
  intros Hwb Hfl H0 Hrun stream.
  assert (Hbol : bol st = at_bol stream).
  { destruct (keeps_indent EscapeString Render written Hwb fuel) as (Hk & _ & _).
    apply (Hk h n level _ _) in Hrun; [exact Hrun|].
    unfold bol_exact. simpl. by rewrite H0. }
  assert (HT : at_bol stream = true →
    Indentln EscapeString Render fuel h bw0 n level = Some (Flush (w st), None)).
  { intros Hb. unfold Indentln, indentHelper. rewrite Hrun. simpl. rewrite Hbol, Hb. done. }
  assert (HF : at_bol stream = false → ∀ bw' err,
    WriteByte (w st) newline = (bw', err) →
    Indentln EscapeString Render fuel h bw0 n level = Some (Flush bw', err) ∧
    (err = None → written (Flush bw') = stream +:+ nl)).
  { intros Hb bw' err Hw. split.
    - unfold Indentln, indentHelper. rewrite Hrun. simpl. rewrite Hbol, Hb, Hw. done.
    - intros ->. by rewrite Hfl, (Hwb _ _ _ Hw). }
  split; [|split; [|split; [|split; [|split; [|split]]]]];
    [|apply Hfl|exact Hbol|apply at_bol_iff|exact HT|exact HF|].
  - unfold Indent, indentHelper. by rewrite Hrun.
  - intros out Hout. destruct (at_bol stream) eqn:Hb.
    + rewrite (HT eq_refl) in Hout. injection Hout as <-.
      rewrite Hfl, string_app_nil_r. split; [done|].
      intros Hne. by apply at_bol_ends_with_newline.
    + destruct (WriteByte (w st) newline) as [bw' err] eqn:Hw.
      destruct (HF eq_refl bw' err eq_refl) as [HI Hwr].
      rewrite HI in Hout. injection Hout as <- ->.
      rewrite (Hwr eq_refl). split; [done|]. intros _.
      unfold ends_with_newline, nl. rewrite last_byte_snoc.
      by apply bool_decide_eq_true.
Qed.

Lemma Indentln_newline_unless_at_bol_witness :
  ∃ st : bolwriter string,
    indent (λ s, s) Render_data 40 Fixtures.para 0 0%Z (mkBolwriter "" true)
      = Some (st, None) ∧
    Indent (λ s, s) Render_data 40 Fixtures.para "" 0 0%Z = Some (Flush (w st), None) ∧
    bol st = at_bol (w st).
Proof.
  assert (Hrun : ∃ st : bolwriter string,
    indent (λ s, s) Render_data 40 Fixtures.para 0 0%Z (mkBolwriter "" true)
      = Some (st, None)) by (vm_compute; eexists; reflexivity).
  destruct Hrun as [st Hrun]. exists st. split; [exact Hrun|].
  destruct (Indentln_newline_unless_at_bol (λ s : string, s) (λ s, s)
              Render_data 40 Fixtures.para "" 0 0%Z st) as (HI & _ & Hb & _).
  - intros bw b bw' [= <-]. reflexivity.
  - reflexivity.
  - reflexivity.
  - exact Hrun.
  - split; [exact HI|exact Hb].
Defined.

(** ** Prune *)

Lemma extends_refl h : extends h h.
Proof. by intros a n. Qed.

Lemma extends_trans h1 h2 h3 : extends h1 h2 → extends h2 h3 → extends h1 h3.
Proof. intros H12 H23 a n Ha. by apply H23, H12. Qed.

Lemma extends_app h k : extends h (h ++ k).
Proof. intros a n Ha. by apply lookup_app_l_Some. Qed.

Lemma extends_length h h' : extends h h' → length h ≤ length h'.
Proof.
  intros He. destruct (decide (length h ≤ length h')) as [|Hn]; [done|].
  destruct (lookup_lt_is_Some_2 h (length h')) as [n Hn']; [lia|].
  apply He in Hn'. apply lookup_lt_Some in Hn'. lia.
Qed.

Lemma extends_prefix h h' : extends h h' → ∃ k, h' = h ++ k.
Proof.
  intros He. exists (drop (length h) h').
  rewrite <- (take_drop (length h) h') at 1. f_equal.
  apply list_eq. intros a. pose proof (extends_length _ _ He).
  destruct (decide (a < length h)) as [Ha|Ha].
  - rewrite lookup_take_lt by done.
    destruct (lookup_lt_is_Some_2 h a Ha) as [n Hn]. rewrite Hn. by apply He.
  - rewrite lookup_take_ge by lia. symmetry. apply lookup_ge_None. lia.
Qed.

Section PruneFacts.
Variable pred : heap → nat → bool.

Lemma relink_child_ok children i child h n :
  h !! child = Some n → i < length children →
  relink_child children i child h = Some (<[child := relinked children i n]> h).
Proof.
  intros Hn Hi. unfold relink_child, relinked.
  assert (Hprev : ∀ j, i = S j → ∃ c, children !! j = Some c).
  { intros j ->. apply lookup_lt_is_Some_2. lia. }
  destruct (decide (i = length children - 1)) as [Hl|Hl].
  - rewrite (bool_decide_eq_true_2 (i = length children - 1)) by done.
    assert (children !! S i = None) as -> by (apply lookup_ge_None; lia).
    destruct i as [|j].
    + rewrite (bool_decide_eq_true_2 (0 = 0)) by done. simpl. by rewrite Hn.
    + rewrite (bool_decide_eq_false_2 (S j = 0)) by done.
      replace (S j - 1) with j by lia.
      destruct (Hprev j eq_refl) as [c Hc]. rewrite Hc. simpl. by rewrite Hn.
  - rewrite (bool_decide_eq_false_2 (i = length children - 1)) by done.
    replace (i + 1) with (S i) by lia.
    destruct (lookup_lt_is_Some_2 children (S i)) as [c' Hc']; [lia|]. rewrite Hc'.
    destruct i as [|j].
    + rewrite (bool_decide_eq_true_2 (0 = 0)) by done. simpl. by rewrite Hn.
    + rewrite (bool_decide_eq_false_2 (S j = 0)) by done.
      replace (S j - 1) with j by lia.
      destruct (Hprev j eq_refl) as [c Hc]. rewrite Hc. simpl. by rewrite Hn.
Qed.

Lemma relink_child_insert children i child h h' :
  relink_child children i child h = Some h' →
  ∃ n', h' = <[child := n']> h.
Proof.
  unfold relink_child. intros Hr.
  destruct (if bool_decide (i = 0) then _ else _) as [prev|]; [|done].
  destruct (if bool_decide (i = length children - 1) then _ else _) as [next|]; [|done].
  simpl in Hr. destruct (h !! child) as [n|]; [|done].
  injection Hr as <-. by eexists.
Qed.

(** The loop only writes at the addresses it is given. *)
Lemma relink_frame children rest i h h' :
  relink children i rest h = Some h' →
  length h' = length h ∧ ∀ a, a ∉ rest → h' !! a = h !! a.
Proof.
  revert i h. induction rest as [|child rest IH]; intros i h; simpl.
  - intros [= <-]. done.
  - destruct (relink_child children i child h) as [h1|] eqn:H1; [|done]. simpl.
    intros Hr. apply IH in Hr as [Hlen Hsame].
    apply relink_child_insert in H1 as [n' ->].
    rewrite length_insert in Hlen. split; [done|].
    intros a Ha. apply not_elem_of_cons in Ha as [Hne Ha].
    rewrite Hsame by done. by apply list_lookup_insert_ne.
Qed.

(** On distinct allocated addresses the loop succeeds and relinks each. *)
Lemma relink_ok children rest i h :
  i + length rest = length children →
  Forall (λ q, q < length h) rest → NoDup rest →
  ∃ h', relink children i rest h = Some h' ∧
        ∀ j q n, rest !! j = Some q → h !! q = Some n →
                 h' !! q = Some (relinked children (i + j) n).
Proof.
  revert i h. induction rest as [|child rest IH]; intros i h Hlen Hall Hnd.
  - exists h. split; [done|]. intros j q n Hj. done.
  - simpl in Hlen. apply Forall_cons in Hall as [Hc Hall].
    apply NoDup_cons in Hnd as [Hnotin Hnd].
    destruct (lookup_lt_is_Some_2 h child Hc) as [n0 Hn0].
    simpl. rewrite (relink_child_ok _ _ _ _ _ Hn0) by lia. simpl.
    destruct (IH (S i) (<[child := relinked children i n0]> h)) as (h' & Hr & Hspec);
      [lia|by rewrite length_insert|done|].
    exists h'. split; [done|].
    intros [|j] q n Hj Hq; simpl in Hj.
    + injection Hj as <-.
      destruct (relink_frame _ _ _ _ _ Hr) as [_ Hsame].
      rewrite Hsame by done. rewrite list_lookup_insert_eq by done.
      rewrite Hn0 in Hq. injection Hq as <-. by rewrite Nat.add_0_r.
    + assert (q ≠ child).
      { intros ->. apply Hnotin. by eapply list_elem_of_lookup_2. }
      replace (i + S j) with (S i + j) by lia.
      apply (Hspec j q n Hj). by rewrite list_lookup_insert_ne.
Qed.

(** Prune and its loop only add to the store, and what they return is new. *)
Lemma Prune_frame fuel :
  (∀ h node h' r, Prune pred fuel h node = Some (h', r) →
     extends h h' ∧ ∀ p, r = Some p → length h ≤ p < length h') ∧
  (∀ h child acc h' children lo,
     Prune_children pred fuel h child acc = Some (h', children) →
     extends h h' ∧
     (lo ≤ length h → Forall (λ q, lo ≤ q) acc → Forall (λ q, lo ≤ q) children)).
Proof.
  induction fuel as [|fuel [IHP IHC]]; [done|]. split.
  - intros h node h' r. simpl. destruct (pred h node).
    { intros [= <- <-]. split; [apply extends_refl|done]. }
    destruct (h !! node) as [n|] eqn:Hn; [|done]. simpl.
    destruct (Prune_children pred fuel h (FirstChild n) []) as [[h1 children]|] eqn:HC;
      [|done]. simpl.
    destruct (relink children 0 children h1) as [h2|] eqn:HR; [|done]. simpl.
    destruct (h2 !! node) as [n2|] eqn:Hn2; [|done]. simpl.
    intros [= <- <-].
    destruct (IHC _ _ _ _ _ (length h) HC) as [He1 Hge].
    specialize (Hge (le_n _) (Forall_nil_2 _)).
    destruct (relink_frame _ _ _ _ _ HR) as [Hlen Hsame].
    pose proof (extends_length _ _ He1).
    split.
    + intros a m Ha. apply lookup_app_l_Some. rewrite Hsame; [by apply He1|].
      intros Hin. rewrite Forall_forall in Hge. apply Hge in Hin.
      apply lookup_lt_Some in Ha. lia.
    + intros p [= <-]. rewrite length_app. simpl. lia.
  - intros h child acc h' children lo. simpl. destruct child as [c|].
    2:{ intros [= <- <-]. split; [apply extends_refl|done]. }
    destruct (Prune pred fuel h c) as [[h1 pruned]|] eqn:HP; [|done]. simpl.
    destruct (h1 !! c) as [cn|]; [|done]. simpl. intros HC.
    destruct (IHP _ _ _ _ HP) as [He1 Hp].
    destruct (IHC _ _ _ _ _ lo HC) as [He2 Hge].
    pose proof (extends_length _ _ He1).
    split; [by eapply extends_trans|].
    intros Hlo Hacc. apply Hge; [lia|].
    destruct pruned as [p|]; [|done].
    apply Forall_app. split; [done|]. apply Forall_singleton.
    specialize (Hp p eq_refl). lia.
Qed.
End PruneFacts.

Lemma tree_ind (P : tree → Prop) :
  (∀ a ks, Forall P ks → P (T a ks)) → ∀ t, P t.
Proof.
  intros HT. fix IH 1. intros [a ks]. apply HT.
  induction ks as [|k ks IHks]; constructor; [apply IH|exact IHks].
Qed.

Lemma same_top_refl m : same_top m m.
Proof. by repeat split. Qed.

Lemma linked_extends h h' ps : extends h h' → linked h ps → linked h' ps.
Proof.
  intros He Hl i q Hq. destruct (Hl i q Hq) as (m & Hm & Hp & Hn).
  exists m. split; [by apply He|done].
Qed.

Section CopyFacts.
Variable pred : heap → nat → bool.
Variable h0 : heap.

Lemma pruned_copy_T h' lo a ks p :
  pruned_copy pred h0 h' lo (T a ks) p ↔
  ∃ n n' ps,
    h0 !! a = Some n ∧ h' !! p = Some n' ∧ payload n' = payload n ∧
    FirstChild n' = head ps ∧ LastChild n' = last ps ∧ linked h' ps ∧
    pruned_copies pred h0 h' p lo ks ps.
Proof.
  simpl.
  assert (Hc : ∀ lo ps,
    (fix copies (lo : nat) (ts : list tree) (ps : list nat) : Prop :=
       match ts with
       | [] => ps = []
       | t :: ts =>
         if pred h0 (root t) then copies lo ts ps
         else
           match ps with
           | [] => False
           | q :: ps =>
             lo ≤ q < p ∧ pruned_copy pred h0 h' lo t q ∧ copies (S q) ts ps
           end
       end) lo ks ps ↔ pruned_copies pred h0 h' p lo ks ps).
  { induction ks as [|k ks IH]; intros lo' ps; simpl; [done|].
    destruct (pred h0 (root k)); [apply IH|].
    destruct ps as [|q ps]; [done|]. by rewrite IH. }
  split; intros (n & n' & ps & H1 & H2 & H3 & H4 & H5 & H6 & H7);
    exists n, n', ps; repeat split; try done; by apply Hc.
Qed.

Lemma pruned_copies_bounds h' hi lo ts ps :
  pruned_copies pred h0 h' hi lo ts ps → Forall (λ q, lo ≤ q < hi) ps.
Proof.
  revert lo ps. induction ts as [|t ts IH]; intros lo ps; simpl.
  - intros ->. constructor.
  - destruct (pred h0 (root t)); [apply IH|].
    destruct ps as [|q ps]; [done|]. intros (Hq & _ & Hps).
    constructor; [done|]. apply IH in Hps.
    eapply Forall_impl; [exact Hps|]. simpl. lia.
Qed.

Lemma pruned_copies_NoDup h' hi lo ts ps :
  pruned_copies pred h0 h' hi lo ts ps → NoDup ps.
Proof.
  revert lo ps. induction ts as [|t ts IH]; intros lo ps; simpl.
  - intros ->. constructor.
  - destruct (pred h0 (root t)); [apply IH|].
    destruct ps as [|q ps]; [done|]. intros (Hq & _ & Hps).
    constructor; [|by eapply IH].
    intros Hin. apply pruned_copies_bounds in Hps.
    rewrite Forall_forall in Hps. apply Hps in Hin. lia.
Qed.

Lemma pruned_copies_stay ts :
  Forall (copy_stays pred h0) ts →
  ∀ hi lo ps h1 h2,
    (∀ a n, lo ≤ a < hi → a ∉ ps → h1 !! a = Some n → h2 !! a = Some n) →
    (∀ q m1, q ∈ ps → h1 !! q = Some m1 → ∃ m2, h2 !! q = Some m2 ∧ same_top m1 m2) →
    pruned_copies pred h0 h1 hi lo ts ps → pruned_copies pred h0 h2 hi lo ts ps.
Proof.
  induction 1 as [|t ts Ht _ IH]; intros hi lo ps h1 h2 Hout Hin; simpl; [done|].
  destruct (pred h0 (root t)); [by apply IH|].
  destruct ps as [|q ps]; [done|]. intros (Hq & Hcopy & Hps).
  pose proof (pruned_copies_bounds _ _ _ _ _ Hps) as Hb.
  rewrite Forall_forall in Hb.
  split; [done|]. split.
  - apply (Ht lo q h1 h2); [| |done].
    + intros a n Ha. apply Hout; [lia|].
      intros Hel. apply elem_of_cons in Hel as [->|Hel]; [lia|].
      apply Hb in Hel. lia.
    + intros m1. apply Hin. by left.
  - apply (IH hi (S q) ps h1 h2); [| |done].
    + intros a n Ha Hnot. apply Hout; [lia|].
      intros Hel. apply elem_of_cons in Hel as [->|Hel]; [lia|done].
    + intros q' m1 Hel. apply Hin. by right.
Qed.

Lemma pruned_copy_stays t : copy_stays pred h0 t.
Proof.
  induction t as [a ks IH] using tree_ind.
  intros lo p h1 h2 Hbelow Htop.
  rewrite !pruned_copy_T.
  intros (n & n' & ps & Hn & Hn' & Hpay & Hfc & Hlc & Hlink & Hps).
  destruct (Htop _ Hn') as (m2 & Hm2 & Hp2 & Hf2 & Hl2).
  pose proof (pruned_copies_bounds _ _ _ _ _ Hps) as Hb.
  rewrite Forall_forall in Hb.
  exists n, m2, ps. split; [done|]. split; [done|].
  split; [congruence|]. split; [congruence|]. split; [congruence|]. split.
  - intros i q Hq. destruct (Hlink i q Hq) as (m & Hm & Hpm & Hnm).
    exists m. split; [|done]. apply Hbelow; [|done].
    apply Hb. by eapply list_elem_of_lookup_2.
  - apply (pruned_copies_stay ks IH p lo ps h1 h2); [| |done].
    + intros a' n0 Ha' _. by apply Hbelow.
    + intros q m1 Hel Hq. exists m1. split; [|apply same_top_refl].
      apply Hbelow; [by apply Hb|done].
Qed.

Lemma pruned_copy_extends h1 h2 lo t p :
  extends h1 h2 → pruned_copy pred h0 h1 lo t p → pruned_copy pred h0 h2 lo t p.
Proof.
  intros He. apply pruned_copy_stays.
  - intros a n _. apply He.
  - intros m1 Hm1. exists m1. split; [by apply He|apply same_top_refl].
Qed.

Lemma pruned_copies_extends h1 h2 hi lo ts ps :
  extends h1 h2 →
  pruned_copies pred h0 h1 hi lo ts ps → pruned_copies pred h0 h2 hi lo ts ps.
Proof.
  intros He. apply pruned_copies_stay.
  - apply Forall_forall. intros t _. apply pruned_copy_stays.
  - intros a n _ _. apply He.
  - intros q m1 _ Hm1. exists m1. split; [by apply He|apply same_top_refl].
Qed.

End CopyFacts.

Section PruneSound.
Variable pred : heap → nat → bool.
Variable h0 : heap.
Hypothesis Hstable : pred_stable pred h0.

Lemma pred_extends h a : extends h0 h → a < length h0 → pred h a = pred h0 a.
Proof.
  intros He Ha. destruct (extends_prefix _ _ He) as [k ->]. by apply Hstable.
Qed.

Lemma same_top_relinked children i m : same_top m (relinked children i m).
Proof. by repeat split. Qed.

Lemma Prune_sound_mut :
  (∀ t, is_tree h0 t → ∀ h fuel, extends h0 h → cost t ≤ fuel →
     if pred h0 (root t) then Prune pred fuel h (root t) = Some (h, None)
     else
       ∃ h2 n ps,
         h0 !! root t = Some n ∧
         Prune pred fuel h (root t) =
           Some (h2 ++ [set_LastChild (last ps) (set_FirstChild (head ps) n)],
                 Some (length h2)) ∧
         length h ≤ length h2 ∧
         linked h2 ps ∧
         pruned_copies pred h0 h2 (length h2) (length h) (kids t) ps) ∧
  (∀ p ts, is_chain h0 p ts → ∀ h acc fuel, extends h0 h → cost_chain ts ≤ fuel →
     ∃ h' ps,
       Prune_children pred fuel h p acc = Some (h', acc ++ ps) ∧
       pruned_copies pred h0 h' (length h') (length h) ts ps).
Proof.
  apply is_tree_chain_ind.
  - intros a n ks Ha _ IH h fuel He Hf. rewrite cost_T in Hf. simpl root.
    assert (Halen : a < length h0) by by eapply lookup_lt_Some.
    pose proof (extends_length _ _ He) as Hlen0.
    destruct fuel as [|fuel]; [lia|]. simpl.
    rewrite (pred_extends h a He Halen).
    destruct (pred h0 a) eqn:Hp; [done|].
    rewrite (He _ _ Ha). simpl.
    destruct (IH h [] fuel He) as (h1 & ps & HC & Hcopies); [lia|].
    simpl in HC. rewrite HC. simpl.
    destruct (Prune_frame pred fuel) as [_ HfrC].
    destruct (HfrC _ _ _ _ _ 0 HC) as [He1 _].
    pose proof (extends_length _ _ He1) as Hlen1.
    pose proof (pruned_copies_bounds _ _ _ _ _ _ _ Hcopies) as Hb.
    pose proof (pruned_copies_NoDup _ _ _ _ _ _ _ Hcopies) as Hnd.
    destruct (relink_ok ps ps 0 h1) as (h2 & HR & Hspec);
      [done|by eapply Forall_impl; [exact Hb|]; simpl; lia|done|].
    destruct (relink_frame _ _ _ _ _ HR) as [Hlen2 Hsame].
    rewrite HR. simpl.
    rewrite Forall_forall in Hb.
    assert (Hn2 : h2 !! a = Some n).
    { rewrite Hsame; [by apply He1, He|]. intros Hin. apply Hb in Hin. lia. }
    rewrite Hn2. simpl.
    exists h2, n, ps. split; [done|]. split; [done|]. split; [lia|]. split.
    + intros i q Hq.
      assert (Hql : q < length h1).
      { apply list_elem_of_lookup_2 in Hq. apply Hb in Hq. lia. }
      destruct (lookup_lt_is_Some_2 h1 q Hql) as [m Hm].
      exists (relinked ps i m). split; [|done]. by apply (Hspec i q m).
    + rewrite Hlen2.
      apply (pruned_copies_stay pred h0 ks) with (h1 := h1); [| | |done].
      * apply Forall_forall. intros t _. apply pruned_copy_stays.
      * intros a' n' _ Hnot Hn'. by rewrite Hsame.
      * intros q m1 Hel Hm1. apply list_elem_of_lookup_1 in Hel as [i Hi].
        exists (relinked ps i m1). split; [by apply (Hspec i q m1)|].
        apply same_top_relinked.
  - intros h acc fuel He Hf. pose proof (cost_chain_pos []).
    destruct fuel as [|fuel]; [lia|]. simpl.
    exists h, []. by rewrite app_nil_r.
  - intros t ts m Ht IHt Hm _ IHts h acc fuel He Hf.
    rewrite cost_chain_cons in Hf.
    pose proof (cost_pos t). pose proof (cost_chain_pos ts).
    destruct fuel as [|fuel]; [lia|]. simpl.
    specialize (IHt h fuel He). 
    destruct (pred h0 (root t)) eqn:Hp.
    + rewrite IHt by lia. simpl. rewrite (He _ _ Hm). simpl.
      destruct (IHts h acc fuel He) as (h' & ps & HC & Hcopies); [lia|].
      exists h', ps. done.
    + destruct IHt as (h2 & n & qs & Hn & HP & Hlen & Hlink & Hcopies); [lia|].
      rewrite HP. simpl.
      set (res := set_LastChild (last qs) (set_FirstChild (head qs) n)) in *.
      assert (He2 : extends h (h2 ++ [res])).
      { destruct (Prune_frame pred fuel) as [HfrP _].
        by destruct (HfrP _ _ _ _ HP). }
      assert (He02 : extends h0 (h2 ++ [res])) by by eapply extends_trans.
      rewrite (He02 _ _ Hm). simpl.
      destruct (IHts (h2 ++ [res]) (acc ++ [length h2]) fuel He02)
        as (h' & ps & HC & Hrest); [lia|].
      rewrite HC. exists h', (length h2 :: ps).
      split; [by rewrite <- app_assoc|].
      destruct (Prune_frame pred fuel) as [_ HfrC].
      destruct (HfrC _ _ _ _ _ 0 HC) as [He' _].
      pose proof (extends_length _ _ He') as Hlen'.
      rewrite length_app in Hlen'. simpl in Hlen'.
      split; [lia|]. split.
      * apply (pruned_copy_extends pred h0 (h2 ++ [res])); [done|].
        destruct t as [a ks]. apply pruned_copy_T.
        exists n, res, qs. simpl in Hn, Hcopies.
        split; [done|]. split; [by apply list_lookup_middle|].
        split; [done|]. split; [done|]. split; [done|]. split.
        -- eapply linked_extends; [apply extends_app|done].
        -- eapply pruned_copies_extends; [apply extends_app|done].
      * rewrite length_app in Hrest. simpl in Hrest.
        by replace (S (length h2)) with (length h2 + 1) by lia.
Qed.
End PruneSound.

Lemma is_tree_extends (h h' : heap) :
  extends h h' →
  (∀ t, is_tree h t → is_tree h' t) ∧
  (∀ p ts, is_chain h p ts → is_chain h' p ts).
Proof.
  intros He. apply is_tree_chain_ind.
  - intros a n ks Ha _ IH. econstructor; [by apply He|done].
  - constructor.
  - intros t ts m _ IHt Hm _ IHts. econstructor; [done|by apply He|done].
Qed.

Lemma Prune_returns (pred : heap → nat → bool) (h : heap) (t : tree) (fuel : nat) :
  is_tree h t → pred_stable pred h → fuel_for t ≤ fuel →
  ∃ h' r, Prune pred fuel h (root t) = Some (h', r).
Proof.
  intros Ht Hst Hf. pose proof (cost_le_fuel_for t).
  pose proof (proj1 (Prune_sound_mut pred h Hst) t Ht h fuel (extends_refl h)) as HP.
  destruct (pred h (root t)).
  - exists h, None. apply HP. lia.
  - destruct HP as (h2 & n & ps & _ & HP & _); [lia|]. by eexists _, _.
Qed.

(** Pruning the [br] out of [<p>hi<br></p>]: the store keeps its three
    nodes and gains the copy of the Text node and the copy of [p]. *)
Example Prune_para :
  Prune (Fixtures.atom_is atom.Br) 20 Fixtures.para 0 =
  Some (Fixtures.para ++
          [ Fixtures.text "hi" (Some 0) None None;
            Fixtures.element atom.P None (Some 3) (Some 3) None None ],
        Some 4).
Proof. reflexivity. Qed.

(** C5: Prune returns nil exactly when the predicate holds of the node.
    Otherwise it returns a new node that is the node with [FirstChild] and
    [LastChild] replaced; its children are the pruned copies of the
    children that survive, in the original order, linked afresh: the first
    has no [PrevSibling], the last no [NextSibling], every other points to
    its neighbours among the survivors; [FirstChild] and [LastChild] are
    the two ends of that list, nil when it is empty. *)
Theorem Prune_pruned_copy (pred : heap → nat → bool) (h : heap) (t : tree) (fuel : nat) :
  is_tree h t → pred_stable pred h → fuel_for t ≤ fuel →
  ∃ h' r,
    Prune pred fuel h (root t) = Some (h', r) ∧
    (r = None ↔ pred h (root t) = true) ∧
    (∀ p, r = Some p →
       ∃ n ps,
         h !! root t = Some n ∧
         h' !! p = Some (set_LastChild (last ps) (set_FirstChild (head ps) n)) ∧
         linked h' ps ∧
         pruned_copies pred h h' p (length h) (kids t) ps ∧
         pruned_copy pred h h' (length h) t p).
Proof.
  intros Ht Hst Hf. pose proof (cost_le_fuel_for t).
  pose proof (proj1 (Prune_sound_mut pred h Hst) t Ht h fuel (extends_refl h)) as HP.
  destruct (pred h (root t)) eqn:Hp.
  - exists h, None. split; [apply HP; lia|]. split; [done|]. intros p [=].
  - destruct HP as (h2 & n & ps & Hn & HP & Hlen & Hlink & Hcopies); [lia|].
    set (res := set_LastChild (last ps) (set_FirstChild (head ps) n)) in *.
    exists (h2 ++ [res]), (Some (length h2)).
    split; [done|]. split; [done|]. intros p [= <-].
    assert (Hl' : linked (h2 ++ [res]) ps)
      by (eapply linked_extends; [apply extends_app|done]).
    assert (Hc' : pruned_copies pred h (h2 ++ [res]) (length h2) (length h) (kids t) ps)
      by (eapply pruned_copies_extends; [apply extends_app|done]).
    exists n, ps. split; [done|]. split; [by apply list_lookup_middle|].
    split; [done|]. split; [done|].
    destruct t as [a ks]. apply pruned_copy_T. exists n, res, ps.
    split; [done|]. split; [by apply list_lookup_middle|]. done.
Qed.

Lemma Prune_pruned_copy_witness :
  ∃ h' r,
    Prune (Fixtures.atom_is atom.Br) 20 Fixtures.para 0 = Some (h', r) ∧
    (r = None ↔ Fixtures.atom_is atom.Br Fixtures.para 0 = true) ∧
    (∀ p, r = Some p →
       ∃ n ps,
         Fixtures.para !! 0 = Some n ∧
         h' !! p = Some (set_LastChild (last ps) (set_FirstChild (head ps) n)) ∧
         linked h' ps ∧
         pruned_copies (Fixtures.atom_is atom.Br) Fixtures.para h' p 3
           [T 1 []; T 2 []] ps ∧
         pruned_copy (Fixtures.atom_is atom.Br) Fixtures.para h' 3
           Fixtures.para_tree p).
Proof.
  apply (Prune_pruned_copy (Fixtures.atom_is atom.Br) Fixtures.para
           Fixtures.para_tree 20 para_is_tree).
  - intros k a Ha. unfold Fixtures.atom_is. by rewrite lookup_app_l.
  - vm_compute; lia.
Defined.

(** C6: Prune leaves the store it was given as it was.  Whatever the fuel
    and the store, when it returns, every node that existed before has all
    its fields unchanged and the node returned did not exist before; on a
    tree, with enough fuel, it does return, and the tree is still there. *)
Theorem Prune_leaves_input_unchanged
    (pred : heap → nat → bool) (h : heap) (t : tree) (fuel : nat) :
  (∀ fuel1 h1 node h' r,
     Prune pred fuel1 h1 node = Some (h', r) →
     (∀ a n, h1 !! a = Some n → h' !! a = Some n) ∧
     (∀ p, r = Some p → h1 !! p = None ∧ is_Some (h' !! p))) ∧
  (is_tree h t → pred_stable pred h → fuel_for t ≤ fuel →
   ∃ h' r,
     Prune pred fuel h (root t) = Some (h', r) ∧
     (∀ a n, h !! a = Some n → h' !! a = Some n) ∧
     (∀ p, r = Some p → h !! p = None) ∧
     is_tree h' t).
Proof.
  assert (Hframe : ∀ fuel1 h1 node h' r,
     Prune pred fuel1 h1 node = Some (h', r) →
     (∀ a n, h1 !! a = Some n → h' !! a = Some n) ∧
     (∀ p, r = Some p → h1 !! p = None ∧ is_Some (h' !! p))).
  { intros fuel1 h1 node h' r HP.
    destruct (proj1 (Prune_frame pred fuel1) _ _ _ _ HP) as [He Hp].
    split; [exact He|]. intros p Hr. specialize (Hp p Hr). split.
    - apply lookup_ge_None. lia.
    - apply lookup_lt_is_Some. lia. }
  split; [exact Hframe|]. intros Ht Hst Hf.
  destruct (Prune_returns pred h t fuel Ht Hst Hf) as (h' & r & HP).
  exists h', r. split; [done|].
  destruct (Hframe _ _ _ _ _ HP) as [He Hp]. split; [done|]. split.
  - intros p Hr. by destruct (Hp p Hr).
  - by apply (is_tree_extends h h' He).
Qed.

Lemma Prune_leaves_input_unchanged_witness :
  ∃ h' r,
    Prune (Fixtures.atom_is atom.Br) 20 Fixtures.para 0 = Some (h', r) ∧
    (∀ a n, Fixtures.para !! a = Some n → h' !! a = Some n) ∧
    (∀ p, r = Some p → Fixtures.para !! p = None) ∧
    is_tree h' Fixtures.para_tree.
Proof.
  apply (Prune_leaves_input_unchanged (Fixtures.atom_is atom.Br) Fixtures.para
           Fixtures.para_tree 20).
  - exact para_is_tree.
  - intros k a Ha. unfold Fixtures.atom_is. by rewrite lookup_app_l.
  - vm_compute; lia.
Defined.

(** * Further properties of the package *)

(** ** The search family *)

Lemma find_head_filter {A} (f : A → bool) (l : list A) :
  List.find f l = head (List.filter f l).
Proof. induction l as [|x l IH]; simpl; [done|]. by destruct (f x). Qed.

Lemma elPred_true pred h a :
  elPred pred h a = true ↔
  ∃ n, h !! a = Some n ∧ Type_ n = ElementNode ∧ pred h a = true.
Proof.
  unfold elPred. destruct (h !! a) as [n|].
  - rewrite andb_true_iff, bool_decide_eq_true. split.
    + intros [Hty Hp]. by exists n.
    + intros (n' & [= <-] & Hty & Hp). done.
  - split; [done|]. by intros (n & Hn & _).
Qed.

Lemma FindAll_collect pred (h : heap) (t : tree) (fuel : nat) :
  is_tree h t → fuel_for t ≤ fuel →
  FindAll pred collect fuel h (root t) [] = Some (List.filter (pred h) (visited h t)).
Proof.
  intros Ht Hf. unfold FindAll.
  rewrite (proj1 (findAll_sound_mut pred h collect) t Ht) by done.
  by rewrite feed_collect.
Qed.

Lemma findAllChildren_sound {St} pred (yield : nat → St → bool * St)
    (h : heap) (a : nat) (ks : list tree) (fuel : nat) (s : St) :
  is_tree h (T a ks) → fuel_for (T a ks) ≤ fuel →
  findAllChildren pred yield fuel h a s =
  Some (feed yield (List.filter (pred h)
          (if isText h a then [] else flat_map (visited h) ks)) s).
Proof.
  intros Ht Hf. inversion Ht as [a' n ks' Ha Hchain]; subst.
  unfold fuel_for in Hf. rewrite cost_T in Hf.
  destruct fuel as [|fuel]; [lia|]. simpl.
  rewrite Ha, (isText_lookup _ _ _ Ha). simpl.
  case_bool_decide; [done|].
  apply (proj2 (findAll_sound_mut pred h yield) _ _ Hchain). lia.
Qed.

Lemma feed_stop_after (n : nat) (l acc : list nat) :
  length acc < n →
  feed (stop_after n) l acc =
  (bool_decide (length acc + length l < n), acc ++ take (n - length acc) l).
Proof.
  revert acc. induction l as [|a l IH]; intros acc Hacc; simpl.
  - rewrite bool_decide_eq_true_2 by lia. by rewrite take_nil, app_nil_r.
  - unfold stop_after at 1. case_bool_decide as Hlt; simpl.
    + rewrite IH by (rewrite length_app; simpl; lia).
      rewrite length_app. simpl. f_equal.
      * apply bool_decide_ext. lia.
      * rewrite <- app_assoc. simpl.
        replace (n - length acc) with (S (n - (length acc + 1))) by lia. done.
    + rewrite bool_decide_eq_false_2 by lia.
      replace (n - length acc) with 1 by lia. reflexivity.
Qed.

(** X1: FindEl returns the first Element node, in the order Find visits
    the tree, for which the predicate holds, and nil when there is none:
    what it returns is an Element node that satisfies the predicate, and
    when it returns nil no visited Element node satisfies it. *)
Theorem FindEl_first_element (pred : heap → nat → bool) (h : heap) (t : tree) (fuel : nat) :
  is_tree h t → fuel_for t ≤ fuel →
  ∃ r : ptr,
    FindEl pred fuel h (root t) = Some r ∧
    match r with
    | Some a =>
        (∃ n, h !! a = Some n ∧ Type_ n = ElementNode ∧ pred h a = true) ∧
        ∃ before after,
          visited h t = before ++ a :: after ∧
          Forall (λ b, ∀ n, h !! b = Some n → Type_ n = ElementNode → pred h b = false)
                 before
    | None =>
        Forall (λ b, ∀ n, h !! b = Some n → Type_ n = ElementNode → pred h b = false)
               (visited h t)
    end.
Proof.
  intros Ht Hf. pose proof (cost_le_fuel_for t).
  assert (Hno : ∀ l, Forall (λ b, elPred pred h b = false) l →
     Forall (λ b, ∀ n, h !! b = Some n → Type_ n = ElementNode → pred h b = false) l).
  { intros l HF. eapply Forall_impl; [exact HF|]. intros b Hb n Hn Hty.
    destruct (pred h b) eqn:Hp; [|done].
    rewrite <- Hb. symmetry. apply elPred_true. by exists n. }
  exists (List.find (elPred pred h) (visited h t)). split.
  - unfold FindEl. apply (Find_sound_mut (elPred pred) h); [done|lia].
  - pose proof (find_first (elPred pred h) (visited h t)) as Hfirst.
    destruct (List.find (elPred pred h) (visited h t)) as [a|].
    + destruct Hfirst as (Ha & before & after & Hv & Hb).
      split; [by apply elPred_true|]. exists before, after. split; [done|by apply Hno].
    + by apply Hno.
Qed.

Lemma FindEl_first_element_witness :
  FindEl (λ _ _, true) 20 Fixtures.para 1 = Some None.
Proof.
  destruct (FindEl_first_element (λ _ _, true) Fixtures.para (T 1 []) 20)
    as (r & Hr & Hspec).
  - is_tree_tac.
  - vm_compute; lia.
  - simpl root in Hr. rewrite Hr. destruct r as [a|]; [|done].
    destruct Hspec as [(n & Hn & Hty & _) (before & after & Hv & _)].
    destruct before as [|b [|b' before]]; simpl in Hv; [|done..].
    injection Hv as <- _. injection Hn as <-. discriminate Hty.
Defined.

(** X2: Find returns the first node that FindAll yields, and nil exactly
    when FindAll yields nothing. *)
Theorem Find_is_first_of_FindAll (pred : heap → nat → bool) (h : heap) (t : tree)
    (fuel : nat) :
  is_tree h t → fuel_for t ≤ fuel →
  ∃ l, FindAll pred collect fuel h (root t) [] = Some l ∧
       Find pred fuel h (root t) = Some (head l).
Proof.
  intros Ht Hf. pose proof (cost_le_fuel_for t).
  exists (List.filter (pred h) (visited h t)).
  split; [by apply FindAll_collect|].
  rewrite <- find_head_filter. apply (Find_sound_mut pred h); [done|lia].
Qed.

Lemma Find_is_first_of_FindAll_witness :
  ∃ l, FindAll Fixtures.is_text collect 20 Fixtures.para 0 [] = Some l ∧
       Find Fixtures.is_text 20 Fixtures.para 0 = Some (head l).
Proof.
  apply (Find_is_first_of_FindAll Fixtures.is_text Fixtures.para Fixtures.para_tree 20).
  - exact para_is_tree.
  - vm_compute; lia.
Defined.

Lemma List_filter_sublist {A} (f : A → bool) (l : list A) :
  List.filter f l `sublist_of` l.
Proof.
  induction l as [|x l IH]; simpl; [constructor|].
  destruct (f x); by constructor.
Qed.

(** X4: FindAllEls and FindAllChildEls yield Element nodes only: every
    node they yield is an Element node that satisfies the predicate, the
    nodes come in document order, from the visited nodes of the tree for
    FindAllEls and from those below the node for FindAllChildEls, and the
    first node FindAllEls yields is the one FindEl returns.  A node of
    another kind is never yielded, whatever the predicate says of it. *)
Theorem FindAllEls_elements_only (pred : heap → nat → bool) (h : heap)
    (a : nat) (ks : list tree) (fuel : nat) :
  is_tree h (T a ks) → fuel_for (T a ks) ≤ fuel →
  ∃ l below,
    FindAllEls pred collect fuel h a [] = Some l ∧
    FindAllChildEls pred collect fuel h a [] = Some below ∧
    l `sublist_of` visited h (T a ks) ∧
    below `sublist_of` flat_map (visited h) ks ∧
    Forall (λ b, ∃ n, h !! b = Some n ∧ Type_ n = ElementNode ∧ pred h b = true)
           (l ++ below) ∧
    FindEl pred fuel h a = Some (head l).
Proof.
  intros Ht Hf.
  exists (List.filter (elPred pred h) (visited h (T a ks))),
         (List.filter (elPred pred h)
            (if isText h a then [] else flat_map (visited h) ks)).
  split; [|split; [|split; [|split; [|split]]]].
  - unfold FindAllEls. by apply (FindAll_collect (elPred pred) h (T a ks)).
  - unfold FindAllChildEls, FindAllChildren.
    rewrite (findAllChildren_sound (elPred pred) collect h a ks fuel [] Ht Hf).
    by rewrite feed_collect.
  - apply List_filter_sublist.
  - destruct (isText h a); [apply sublist_nil_l|apply List_filter_sublist].
  - apply Forall_app. split; apply Forall_forall; intros b Hb;
      apply list_elem_of_In, List.filter_In in Hb as [_ Hb];
      by apply elPred_true.
  - unfold FindEl. rewrite <- find_head_filter.
    pose proof (cost_le_fuel_for (T a ks)).
    apply (proj1 (Find_sound_mut (elPred pred) h) (T a ks)); [done|lia].
Qed.

Lemma FindAllEls_elements_only_witness :
  ∃ l below,
    FindAllEls (λ _ _, true) collect 20 Fixtures.para 0 [] = Some l ∧
    FindAllChildEls (λ _ _, true) collect 20 Fixtures.para 0 [] = Some below ∧
    l `sublist_of` visited Fixtures.para Fixtures.para_tree ∧
    below `sublist_of` flat_map (visited Fixtures.para) [T 1 []; T 2 []] ∧
    Forall (λ b, ∃ n, Fixtures.para !! b = Some n ∧ Type_ n = ElementNode ∧ true = true)
           (l ++ below) ∧
    FindEl (λ _ _, true) 20 Fixtures.para 0 = Some (head l).
Proof.
  apply (FindAllEls_elements_only (λ _ _, true) Fixtures.para 0 [T 1 []; T 2 []] 20).
  - exact para_is_tree.
  - vm_compute; lia.
Defined.

(** X5: a consumer that leaves the loop after [n] nodes gets exactly the
    first [n] nodes of the sequence, from Walk and from FindAll alike: once
    [yield] has returned false no further node is handed to it. *)
Theorem iterators_stop_early (pred : heap → nat → bool) (h : heap) (t : tree)
    (fuel n : nat) :
  is_tree h t → fuel_for t ≤ fuel → 1 ≤ n →
  Walk (stop_after n) fuel h (root t) [] = Some (take n (walk_seq h t)) ∧
  FindAll pred (stop_after n) fuel h (root t) [] =
    Some (take n (List.filter (pred h) (visited h t))).
Proof.
  intros Ht Hf Hn. pose proof (cost_le_fuel_for t). split.
  - unfold Walk.
    rewrite (proj1 (walk_sound_mut h (stop_after n)) t Ht) by lia.
    rewrite feed_stop_after by (simpl; lia). simpl. by rewrite Nat.sub_0_r.
  - unfold FindAll.
    rewrite (proj1 (findAll_sound_mut pred h (stop_after n)) t Ht) by done.
    rewrite feed_stop_after by (simpl; lia). simpl. by rewrite Nat.sub_0_r.
Qed.

Lemma iterators_stop_early_witness :
  Walk (stop_after 1) 20 Fixtures.para 0 [] = Some [0] ∧
  FindAll (λ _ _, true) (stop_after 1) 20 Fixtures.para 0 [] = Some [0].
Proof.
  apply (iterators_stop_early (λ _ _, true) Fixtures.para Fixtures.para_tree 20 1).
  - exact para_is_tree.
  - vm_compute; lia.
  - lia.
Defined.

(** ** ElAttr and ElClassContains *)

Lemma attr_val_missing (attrs : list Attribute) (key : string) :
  Forall (λ attr, Key attr ≠ key) attrs → attr_val attrs key = "".
Proof.
  induction 1 as [|attr attrs Hne _ IH]; simpl; [done|].
  by rewrite bool_decide_eq_false_2.
Qed.

Lemma attr_val_first (before after : list Attribute) (attr : Attribute) (key : string) :
  Forall (λ b, Key b ≠ key) before → Key attr = key →
  attr_val (before ++ attr :: after) key = Val attr.
Proof.
  intros Hb Hk. induction Hb as [|b before Hne _ IH]; simpl.
  - by rewrite bool_decide_eq_true_2.
  - by rewrite bool_decide_eq_false_2.
Qed.

Lemma has_class_elem_of (classes : list string) (probe : string) :
  has_class classes probe = true ↔ probe ∈ classes.
Proof.
  induction classes as [|c classes IH]; simpl.
  - split; [done|]. by intros ?%elem_of_nil.
  - rewrite elem_of_cons. case_bool_decide as Hc.
    + split; [|done]. intros _. by left.
    + rewrite IH. split; [by right|]. intros [->|Hin]; done.
Qed.

(** X7: ElAttr gives the empty string when no attribute of the node has
    the key. *)
Theorem ElAttr_missing_key (node : Node) (key : string) :
  Forall (λ attr, Key attr ≠ key) (Attr node) → ElAttr node key = "".
Proof.
  unfold ElAttr. induction 1 as [|attr attrs Hne _ IH]; simpl; [done|].
  by rewrite bool_decide_eq_false_2.
Qed.

Lemma ElAttr_missing_key_witness : ElAttr div_two_ids "class" = "".
Proof.
  apply (ElAttr_missing_key div_two_ids "class").
  repeat constructor; discriminate.
Defined.

(** X8: ElAttr gives the value of the first attribute with the key,
    whatever attributes come after it: of two attributes with the same key
    the second is never seen. *)
Theorem ElAttr_first_match (node : Node) (before after : list Attribute)
    (attr : Attribute) (key : string) :
  Attr node = before ++ attr :: after →
  Forall (λ b, Key b ≠ key) before → Key attr = key →
  ElAttr node key = Val attr.
Proof.
  unfold ElAttr. intros -> Hb Hk. induction Hb as [|b before Hne _ IH]; simpl.
  - by rewrite bool_decide_eq_true_2.
  - by rewrite bool_decide_eq_false_2.
Qed.

Lemma ElAttr_first_match_witness : ElAttr div_two_ids "id" = "a".
Proof.
  apply (ElAttr_first_match div_two_ids [] [mkAttr "" "id" "b"] (mkAttr "" "id" "a") "id").
  - reflexivity.
  - constructor.
  - reflexivity.
Defined.

(** X9: ElClassContains holds exactly when the probe is one of the fields
    of the value of the node's first [class] attribute; further [class]
    attributes are not looked at, and a node without one is tested on the
    fields of the empty string. *)
Theorem ElClassContains_first_class_attribute
    (Fields : string → list string) (node : Node) (probe : string) :
  (∀ before attr after,
     Attr node = before ++ attr :: after →
     Forall (λ b, Key b ≠ "class") before → Key attr = "class" →
     (ElClassContains Fields node probe = true ↔ probe ∈ Fields (Val attr))) ∧
  (Forall (λ attr, Key attr ≠ "class") (Attr node) →
   (ElClassContains Fields node probe = true ↔ probe ∈ Fields "")).
Proof.
  unfold ElClassContains. split.
  - intros before attr after Hattr Hb Hk.
    unfold ElAttr. rewrite Hattr, (attr_val_first _ _ _ _ Hb Hk).
    apply has_class_elem_of.
  - intros Hno. unfold ElAttr. rewrite (attr_val_missing _ _ Hno).
    apply has_class_elem_of.
Qed.

Lemma ElClassContains_first_class_attribute_witness :
  (ElClassContains Fields_word div_class_x "x" = true ↔ "x" ∈ Fields_word "x") ∧
  (ElClassContains Fields_word div_two_ids "x" = true ↔ "x" ∈ Fields_word "").
Proof.
  split.
  - apply (proj1 (ElClassContains_first_class_attribute Fields_word div_class_x "x")
             [] (mkAttr "" "class" "x") []).
    + reflexivity.
    + constructor.
    + reflexivity.
  - apply (proj2 (ElClassContains_first_class_attribute Fields_word div_two_ids "x")).
    repeat constructor; discriminate.
Defined.

(** ** Prune, then Text *)

Lemma cost_chain_nil : cost_chain [] = 1.
Proof. with_strategy transparent [cost_chain] reflexivity. Qed.

(** A linked list of siblings is a child chain. *)
Lemma chain_of_linked (h' : heap) (ps : list nat) :
  linked h' ps →
  ∀ ts i, map root ts = drop i ps → Forall (is_tree h') ts →
          is_chain h' (ps !! i) ts.
Proof.
  intros Hl ts. induction ts as [|t ts IH]; intros i Hroots Hts.
  - simpl in Hroots.
    assert (ps !! i = None) as ->.
    { rewrite <- (Nat.add_0_r i), <- lookup_drop, <- Hroots. done. }
    constructor.
  - simpl in Hroots. apply Forall_cons in Hts as [Ht Hts].
    assert (Hi : ps !! i = Some (root t)).
    { rewrite <- (Nat.add_0_r i), <- lookup_drop, <- Hroots. done. }
    destruct (Hl i (root t) Hi) as (m & Hm & _ & Hnext).
    rewrite Hi. apply (is_chain_cons h' t ts m); [done..|].
    rewrite Hnext. apply IH; [|done].
    apply (drop_S _ _ _) in Hi. rewrite Hi in Hroots. by injection Hroots.
Qed.

Section CopyIsTree.
Variable UnescapeString : string → string.
Variable pred : heap → nat → bool.
Variables h0 h' : heap.

Lemma copies_read_as (ks : list tree) :
  Forall (λ t, ∀ lo p, pruned_copy pred h0 h' lo t p → ∃ t', copy_reads_as UnescapeString pred h0 h' t p t') ks →
  ∀ hi lo ps, pruned_copies pred h0 h' hi lo ks ps →
  ∃ ts', map root ts' = ps ∧ Forall (is_tree h') ts' ∧
         cost_chain ts' ≤ cost_chain ks ∧
         flat_map (text_chunks UnescapeString h') ts' =
         flat_map (text_chunks UnescapeString h0)
           (flat_map (λ k, if pred h0 (root k) then [] else [prune_tree pred h0 k]) ks).
Proof.
  induction 1 as [|k ks Hk _ IH]; intros hi lo ps; simpl.
  - intros ->. exists []. by repeat split.
  - rewrite cost_chain_cons. pose proof (cost_pos k).
    destruct (pred h0 (root k)).
    + intros Hps. destruct (IH _ _ _ Hps) as (ts' & ? & ? & ? & ?).
      exists ts'. repeat split; [done..|lia|done].
    + destruct ps as [|q ps]; [done|]. intros (_ & Hq & Hps).
      destruct (Hk _ _ Hq) as (t' & Hroot & Ht' & Hcost & Htext).
      destruct (IH _ _ _ Hps) as (ts' & Hroots & Hts' & Hcosts & Htexts).
      exists (t' :: ts'). simpl. rewrite cost_chain_cons.
      split; [by rewrite Hroot, Hroots|]. split; [by constructor|].
      split; [lia|]. by rewrite Htext, Htexts.
Qed.

Lemma copy_is_tree (t : tree) :
  ∀ lo p, pruned_copy pred h0 h' lo t p → ∃ t', copy_reads_as UnescapeString pred h0 h' t p t'.
Proof.
  induction t as [a ks IH] using tree_ind. intros lo p.
  rewrite pruned_copy_T.
  intros (n & n' & ps & Hn & Hn' & Hpay & Hfc & Hlc & Hlink & Hps).
  destruct (copies_read_as ks IH _ _ _ Hps) as (ts' & Hroots & Hts' & Hcosts & Htexts).
  exists (T p ts'). split; [done|]. split; [|split].
  - apply (is_tree_T h' p n' ts'); [done|]. rewrite Hfc.
    rewrite head_lookup.
    apply chain_of_linked; [done| |done]. by rewrite drop_0.
  - rewrite !cost_T. lia.
  - simpl. rewrite Hn, Hn'. unfold payload in Hpay.
    injection Hpay as _ Hty Hatom Hdata _ _.
    rewrite Hty, Hatom, Hdata, Htexts. done.
Qed.
End CopyIsTree.

Lemma Prune_copy (pred : heap → nat → bool) (h : heap) (t : tree) (fuel : nat) :
  is_tree h t → pred_stable pred h → fuel_for t ≤ fuel → pred h (root t) = false →
  ∃ h' p, Prune pred fuel h (root t) = Some (h', Some p) ∧
          pruned_copy pred h h' (length h) t p.
Proof.
  intros Ht Hst Hf Hp. pose proof (cost_le_fuel_for t).
  pose proof (proj1 (Prune_sound_mut pred h Hst) t Ht h fuel (extends_refl h)) as HP.
  rewrite Hp in HP.
  destruct HP as (h2 & n & ps & Hn & HP & Hlen & Hlink & Hcopies); [lia|].
  set (res := set_LastChild (last ps) (set_FirstChild (head ps) n)) in *.
  exists (h2 ++ [res]), (length h2). split; [done|].
  destruct t as [a ks]. apply pruned_copy_T. exists n, res, ps.
  split; [done|]. split; [by apply list_lookup_middle|].
  split; [done|]. split; [done|]. split; [done|]. split.
  - eapply linked_extends; [apply extends_app|done].
  - eapply pruned_copies_extends; [apply extends_app|done].
Qed.

Lemma prune_tree_no_match (pred : heap → nat → bool) (h : heap) (t : tree) :
  (∀ a, a ∈ preorder t → pred h a = false) → prune_tree pred h t = t.
Proof.
  induction t as [a ks IH] using tree_ind. simpl. intros Hno. f_equal.
  assert (Hks : ∀ b, b ∈ flat_map preorder ks → pred h b = false).
  { intros b Hb. apply Hno. by right. }
  clear Hno. induction IH as [|k ks Hk _ IHks]; simpl in *; [done|].
  assert (Hroot : pred h (root k) = false).
  { apply Hks. apply elem_of_app. left. destruct k. simpl. by left. }
  rewrite Hroot. simpl. f_equal.
  - apply Hk. intros b Hb. apply Hks, elem_of_app. by left.
  - apply IHks. intros b Hb. apply Hks, elem_of_app. by right.
Qed.

(** X10: the node that Prune returns is the root of a tree in the new
    store, and Text of it is the text of the original tree without the
    subtrees whose root satisfies the predicate, in document order. *)
Theorem Text_of_Prune (UnescapeString : string → string) (pred : heap → nat → bool)
    (h : heap) (t : tree) (fuel : nat) :
  is_tree h t → pred_stable pred h → fuel_for t ≤ fuel → pred h (root t) = false →
  ∃ h' p t',
    Prune pred fuel h (root t) = Some (h', Some p) ∧
    root t' = p ∧ is_tree h' t' ∧
    Text UnescapeString fuel h' p =
      Some (join (text_chunks UnescapeString h (prune_tree pred h t)), None).
Proof.
  intros Ht Hst Hf Hp. pose proof (cost_le_fuel_for t).
  destruct (Prune_copy pred h t fuel Ht Hst Hf Hp) as (h' & p & HP & Hcopy).
  destruct (copy_is_tree UnescapeString pred h h' t _ _ Hcopy)
    as (t' & Hroot & Ht' & Hcost & Htext).
  exists h', p, t'. split; [done|]. split; [done|]. split; [done|].
  unfold Text. rewrite <- Hroot.
  rewrite (proj1 (WriteText_sound_mut UnescapeString h') t' Ht') by lia.
  by rewrite write_all_buffer, Htext.
Qed.

Lemma Text_of_Prune_witness :
  ∃ h' p t',
    Prune (Fixtures.atom_is atom.Br) 20 Fixtures.para 0 = Some (h', Some p) ∧
    root t' = p ∧ is_tree h' t' ∧
    Text (λ s, s) 20 h' p =
      Some (join (text_chunks (λ s, s) Fixtures.para
                    (prune_tree (Fixtures.atom_is atom.Br) Fixtures.para
                       Fixtures.para_tree)), None).
Proof.
  apply (Text_of_Prune (λ s, s) (Fixtures.atom_is atom.Br) Fixtures.para
           Fixtures.para_tree 20 para_is_tree).
  - intros k a Ha. unfold Fixtures.atom_is. by rewrite lookup_app_l.
  - vm_compute; lia.
  - reflexivity.
Defined.

(** X11: when no node of the tree satisfies the predicate, Text of the
    pruned copy is Text of the original. *)
Theorem Prune_without_match_keeps_text (UnescapeString : string → string)
    (pred : heap → nat → bool) (h : heap) (t : tree) (fuel : nat) :
  is_tree h t → pred_stable pred h → fuel_for t ≤ fuel →
  (∀ a, a ∈ preorder t → pred h a = false) →
  ∃ h' p,
    Prune pred fuel h (root t) = Some (h', Some p) ∧
    Text UnescapeString fuel h' p = Text UnescapeString fuel h (root t).
Proof.
  intros Ht Hst Hf Hno. pose proof (cost_le_fuel_for t).
  assert (Hp : pred h (root t) = false).
  { apply Hno. destruct t. simpl. by left. }
  destruct (Prune_copy pred h t fuel Ht Hst Hf Hp) as (h' & p & HP & Hcopy).
  destruct (copy_is_tree UnescapeString pred h h' t _ _ Hcopy)
    as (t' & Hroot & Ht' & Hcost & Htext).
  exists h', p. split; [done|].
  unfold Text. rewrite <- Hroot.
  rewrite (proj1 (WriteText_sound_mut UnescapeString h') t' Ht') by lia.
  rewrite (proj1 (WriteText_sound_mut UnescapeString h) t Ht) by lia.
  by rewrite Htext, (prune_tree_no_match pred h t Hno).
Qed.

Lemma Prune_without_match_keeps_text_witness :
  ∃ h' p,
    Prune (Fixtures.atom_is atom.Table) 20 Fixtures.para 0 = Some (h', Some p) ∧
    Text (λ s, s) 20 h' p = Text (λ s, s) 20 Fixtures.para 0.
Proof.
  apply (Prune_without_match_keeps_text (λ s, s) (Fixtures.atom_is atom.Table)
           Fixtures.para Fixtures.para_tree 20 para_is_tree).
  - intros k a Ha. unfold Fixtures.atom_is. by rewrite lookup_app_l.
  - vm_compute; lia.
  - intros a Ha. simpl in Ha.
    repeat (apply elem_of_cons in Ha as [->|Ha]; [reflexivity|]).
    by apply elem_of_nil in Ha.
Defined.

(** ** More on the indenting renderer *)

Lemma Repeat_in_range (level : Z) :
  (0 ≤ level)%Z → (2 * level ≤ maxInt)%Z →
  Repeat "  " level = Some (repeat_string "  " (Z.to_nat level)).
Proof.
  intros H0 Hmax. unfold Repeat. rewrite bool_decide_eq_false_2; [done|].
  simpl. lia.
Qed.

Lemma Repeat_negative (level : Z) : (level < 0)%Z → Repeat "  " level = None.
Proof. intros Hneg. unfold Repeat. rewrite bool_decide_eq_true_2; [done|]. by left. Qed.

Lemma wrap_int_succ (level : Z) :
  (0 ≤ level)%Z → (2 * (level + 1) ≤ maxInt)%Z → wrap_int (level + 1) = (level + 1)%Z.
Proof.
  unfold wrap_int, maxInt. intros H0 Hmax.
  rewrite Z.mod_small; lia.
Qed.

Lemma depth_T a ks : depth (T a ks) = S (max_list (map depth ks)).
Proof. reflexivity. Qed.

Section RunsFacts.
Variable EscapeString : string → string.
Variable Render : heap → nat → string * option error.
Context `{ByteWriter W}.

Local Notation "a ;;; b" := (and_then a b) (at level 65, right associativity).

Lemma runs_skip : runs skip.
Proof. intros st. by eexists. Qed.

Lemma runs_fail e : runs (fail e).
Proof. intros st. by eexists. Qed.

Lemma runs_and_then a b : runs a → runs b → runs (a ;;; b).
Proof.
  intros Ha Hb st. unfold and_then.
  destruct (Ha st) as [[st1 [e|]] ->]; [by eexists|apply Hb].
Qed.

Lemma runs_if (c : bool) a b : runs a → runs b → runs (if c then a else b).
Proof. by destruct c. Qed.

Lemma runs_if_bol a : runs a → runs (if_bol a).
Proof.
  intros Ha st. unfold if_bol. destruct (bol st); [apply Ha|apply runs_skip].
Qed.

Lemma runs_bolwriter_Write p : runs (bolwriter_Write p).
Proof.
  induction p as [|b p IH]; intros st; simpl; [by eexists|].
  destruct (WriteByte (w st) b) as [bw [e|]]; [by eexists|apply IH].
Qed.

Lemma runs_Fprint s : runs (Fprint s).
Proof. apply runs_bolwriter_Write. Qed.

Lemma runs_ensureNewline : runs ensureNewline.
Proof.
  intros st. unfold ensureNewline. destruct (bol st); [by eexists|].
  destruct (WriteByte (w st) newline) as [bw [e|]]; by eexists.
Qed.

Lemma runs_html_Render h n : runs (html_Render Render h n).
Proof.
  unfold html_Render. destruct (Render h n) as [bytes [e|]];
    apply runs_and_then;
    auto using runs_bolwriter_Write, runs_fail, runs_skip.
Qed.

Lemma runs_write_attrs attrs : runs (write_attrs EscapeString attrs).
Proof.
  induction attrs as [|a attrs IH]; cbn [write_attrs]; [apply runs_skip|].
  apply runs_and_then; [apply runs_Fprint|].
  apply runs_and_then; [|exact IH].
  apply runs_if; [apply runs_Fprint|apply runs_skip].
Qed.

Ltac runs_step :=
  lazymatch goal with
  | |- runs (and_then _ _) => apply runs_and_then
  | |- runs (if _ then _ else _) => apply runs_if
  | |- runs (if_bol _) => apply runs_if_bol
  | |- runs (Fprint _) => apply runs_Fprint
  | |- runs ensureNewline => apply runs_ensureNewline
  | |- runs skip => apply runs_skip
  | |- runs (fail _) => apply runs_fail
  | |- runs (html_Render _ _ _) => apply runs_html_Render
  | |- runs (write_attrs _ _) => apply runs_write_attrs
  | |- runs _ => solve [auto]
  end.

#[local] Arguments Fprint : simpl never.
#[local] Arguments ensureNewline : simpl never.
#[local] Arguments html_Render : simpl never.
#[local] Arguments write_attrs : simpl never.
#[local] Arguments if_bol : simpl never.
#[local] Arguments and_then : simpl never.
#[local] Arguments skip : simpl never.
#[local] Arguments fail : simpl never.
#[local] Arguments Has : simpl never.

Variable h : heap.

Lemma indent_runs_mut :
  (∀ t, is_tree h t → ∀ fuel level,
     cost t ≤ fuel → (0 ≤ level)%Z →
     (2 * (level + Z.of_nat (depth t)) ≤ maxInt)%Z →
     runs (indent EscapeString Render fuel h (root t) level)) ∧
  (∀ p ts, is_chain h p ts → ∀ fuel level,
     cost_chain ts ≤ fuel → (0 ≤ level)%Z →
     (2 * (level + 1 + Z.of_nat (max_list (map depth ts))) ≤ maxInt)%Z →
     runs (indent_document_children EscapeString Render fuel h p level) ∧
     ∀ literal,
       runs (indent_element_children EscapeString Render fuel h literal p level)).
Proof.
  apply is_tree_chain_ind.
  - intros a n ks Ha _ IH fuel level Hf H0 Hmax. rewrite cost_T in Hf.
    rewrite depth_T in Hmax. simpl root.
    destruct fuel as [|fuel]; [lia|].
    destruct (IH fuel level) as [IHd IHe]; [lia|lia|lia|].
    intros st. simpl.
    rewrite Repeat_in_range by lia. simpl. rewrite Ha. simpl.
    revert st.
    destruct (Type_ n);
      lazymatch goal with |- ∀ st, is_Some (?a st) => change (runs a) end;
      repeat runs_step.
  - intros fuel level Hf _ _. pose proof (cost_chain_pos []).
    destruct fuel as [|fuel]; [lia|]. simpl. split; [|intros _]; apply runs_skip.
  - intros t ts m _ IHt Hm _ IHts fuel level Hf H0 Hmax.
    rewrite cost_chain_cons in Hf.
    pose proof (cost_pos t). pose proof (cost_chain_pos ts).
    simpl in Hmax.
    destruct fuel as [|fuel]; [lia|].
    destruct (IHts fuel level) as [IHd IHe]; [lia|lia|lia|].
    split; [|intros literal]; intros st; simpl; rewrite Hm; simpl; revert st;
      lazymatch goal with |- ∀ st, is_Some (?a st) => change (runs a) end;
      repeat runs_step.
    + apply IHt; lia.
    + rewrite wrap_int_succ by lia. apply IHt; lia.
Qed.
End RunsFacts.

Section GrowsFacts.
Variable EscapeString : string → string.
Variable Render : heap → nat → string * option error.
Context `{ByteWriter W}.
Variable written : W → string.
Hypothesis written_grows :
  ∀ bw b bw' r, WriteByte bw b = (bw', r) → ∃ s, written bw' = written bw +:+ s.

Local Notation "a ;;; b" := (and_then a b) (at level 65, right associativity).












#[local] Arguments Fprint : simpl never.
#[local] Arguments ensureNewline : simpl never.
#[local] Arguments html_Render : simpl never.
#[local] Arguments write_attrs : simpl never.
#[local] Arguments if_bol : simpl never.
#[local] Arguments and_then : simpl never.
#[local] Arguments skip : simpl never.
#[local] Arguments fail : simpl never.
#[local] Arguments Has : simpl never.


End GrowsFacts.

(** X12: on a tree, at a level that is not negative and leaves room for
    the depth of the tree, Indent and Indentln always come back, with nil
    or with an error: the renderer does not panic and does not run on. *)
Theorem Indent_returns_on_trees {W : Type} {BW : ByteWriter W}
    (EscapeString : string → string) (Render : heap → nat → string * option error)
    (h : heap) (t : tree) (fuel : nat) (level : Z) (bw : W) :
  is_tree h t → fuel_for t ≤ fuel →
  (0 ≤ level)%Z → (2 * (level + Z.of_nat (depth t)) ≤ maxInt)%Z →
  (∃ out err, Indent EscapeString Render fuel h bw (root t) level = Some (out, err)) ∧
  (∃ out err, Indentln EscapeString Render fuel h bw (root t) level = Some (out, err)).
Proof.
  intros Ht Hf H0 Hmax. pose proof (cost_le_fuel_for t).
  destruct (proj1 (indent_runs_mut EscapeString Render h) t Ht fuel level
              ltac:(lia) H0 Hmax (mkBolwriter bw true)) as [[st err] Hrun].
  unfold Indent, Indentln, indentHelper. rewrite Hrun. simpl.
  split.
  - destruct err; by eexists _, _.
  - destruct err; [by eexists _, _|].
    destruct (bol st); [by eexists _, _|].
    destruct (WriteByte (w st) newline). by eexists _, _.
Qed.

Lemma Indent_returns_on_trees_witness :
  (∃ out err, Indent (λ s, s) Render_data 20 Fixtures.para "" 0 0%Z = Some (out, err)) ∧
  (∃ out err, Indentln (λ s, s) Render_data 20 Fixtures.para "" 0 0%Z = Some (out, err)).
Proof.
  apply (Indent_returns_on_trees (λ s, s) Render_data Fixtures.para
           Fixtures.para_tree 20 0%Z "" para_is_tree).
  - vm_compute; lia.
  - lia.
  - vm_compute. discriminate.
Defined.

(** X13: at a negative level Indent and Indentln panic, whatever the node:
    the indentation prefix is built before the node is looked at. *)
Theorem Indent_negative_level_panics {W : Type} {BW : ByteWriter W}
    (EscapeString : string → string) (Render : heap → nat → string * option error)
    (h : heap) (n fuel : nat) (level : Z) (bw : W) :
  (level < 0)%Z →
  Indent EscapeString Render fuel h bw n level = None ∧
  Indentln EscapeString Render fuel h bw n level = None.
Proof.
  intros Hneg. unfold Indent, Indentln, indentHelper.
  destruct fuel as [|fuel]; [done|]. simpl.
  by rewrite (Repeat_negative level Hneg).
Qed.

Lemma Indent_negative_level_panics_witness :
  Indent (λ s, s) Render_data 20 Fixtures.para "" 0 (-1)%Z = None ∧
  Indentln (λ s, s) Render_data 20 Fixtures.para "" 0 (-1)%Z = None.
Proof.
  apply (Indent_negative_level_panics (λ s, s) Render_data Fixtures.para 0 20 (-1)%Z "").
  lia.
Defined.



Lemma last_byte_cons (c : ascii) (s : string) :
  last_byte (String c s) =
  match last_byte s with Some d => Some d | None => Some c end.
Proof.
  destruct s as [|a s]; [reflexivity|].
  change (last_byte (String c (String a s))) with (last_byte (String a s)).
  destruct (last_byte (String a s)) eqn:Hl; [reflexivity|].
  by apply last_byte_None in Hl.
Qed.

Lemma last_byte_app (s1 s2 : string) :
  last_byte (s1 +:+ s2) =
  match last_byte s2 with Some d => Some d | None => last_byte s1 end.
Proof.
  induction s1 as [|c s1 IH].
  - change ("" +:+ s2) with s2. by destruct (last_byte s2).
  - rewrite string_app_cons, !last_byte_cons, IH.
    by destruct (last_byte s2), (last_byte s1).
Qed.

Lemma bol_after_app (b : bool) (s1 s2 : string) :
  bol_after (bol_after b s1) s2 = bol_after b (s1 +:+ s2).
Proof.
  unfold bol_after. rewrite last_byte_app. by destruct (last_byte s2).
Qed.

Lemma bol_after_false (s : string) : bol_after false s = ends_with_newline s.
Proof.
  unfold bol_after, ends_with_newline. destruct (last_byte s) as [c|].
  - apply bool_decide_ext. split; [by intros ->|by intros [= ->]].
  - by rewrite bool_decide_eq_false_2.
Qed.

Lemma literal_not_block_nor_void (a : Atom) :
  Has literalChildElements a = true →
  Has blockElements a = false ∧ Has voidElements a = false.
Proof.
  unfold Has. intros Hl%bool_decide_eq_true.
  split; apply bool_decide_eq_false; intros Hin.
  - apply (not_elem_of_empty (C:=gset Atom) a).
    rewrite <- block_literal_common. by apply elem_of_intersection.
  - apply (not_elem_of_empty (C:=gset Atom) a).
    rewrite <- void_literal_common. by apply elem_of_intersection.
Qed.

Section BufferFacts.
Variable EscapeString : string → string.
Variable Render : heap → nat → string * option error.

Local Notation "a ;;; b" := (and_then a b) (at level 65, right associativity).

Lemma Write_buffer (p buf : string) (b : bool) :
  bolwriter_Write p (mkBolwriter buf b) =
  Some (mkBolwriter (buf +:+ p) (bol_after b p), None).
Proof.
  revert buf b. induction p as [|c p IH]; intros buf b.
  - simpl. by rewrite string_app_nil_r.
  - cbn [bolwriter_Write]. cbn [WriteByte Buffer_ByteWriter w bol].
    rewrite IH, string_app_assoc, string_app_cons.
    change ("" +:+ p) with p. do 3 f_equal.
    unfold bol_after. rewrite last_byte_cons. by destruct (last_byte p).
Qed.

Lemma emits_Fprint (s : string) : emits (Fprint s) s.
Proof. intros buf b. unfold Fprint. by rewrite Write_buffer. Qed.

Lemma emits_skip : emits skip "".
Proof. intros buf b. unfold skip. by rewrite string_app_nil_r. Qed.

Lemma emits_and_then (a1 a2 : @act string) (s1 s2 : string) :
  emits a1 s1 → emits a2 s2 → emits (a1 ;;; a2) (s1 +:+ s2).
Proof.
  intros H1 H2 buf b. unfold and_then.
  rewrite H1, H2. by rewrite string_app_assoc, bol_after_app.
Qed.

Lemma emits_write_attrs (attrs : list Attribute) :
  emits (write_attrs EscapeString attrs) (attrs_text EscapeString attrs).
Proof.
  induction attrs as [|a attrs IH]; cbn [write_attrs attrs_text]; [apply emits_skip|].
  apply emits_and_then; [apply emits_Fprint|].
  apply emits_and_then; [|exact IH].
  case_bool_decide; [apply emits_Fprint|apply emits_skip].
Qed.

(** The first two steps of the Element case: the line break ahead of a
    block element and the indentation at the beginning of a line. *)
Lemma lead_in_buffer (isBlock : bool) (prefix : string) (rest : @act string)
    (buf : string) (b : bool) :
  ((if isBlock then ensureNewline else skip) ;;;
   if_bol (Fprint prefix) ;;; rest) (mkBolwriter buf b) =
  rest (mkBolwriter
          (buf +:+ (if isBlock && negb b then nl else "") +:+
                   (if isBlock || b then prefix else ""))
          (bol_after (isBlock || b) (if isBlock || b then prefix else ""))).
Proof.
  unfold and_then, ensureNewline, if_bol, skip, Fprint.
  destruct isBlock, b; cbn [bol w WriteByte Buffer_ByteWriter andb orb negb];
    rewrite ?Write_buffer, ?string_app_nil_r, ?string_app_assoc; reflexivity.
Qed.

(** The loop over the children of a literal-content element when they are
    all Text nodes: their [Data], one after the other. *)
Lemma emits_literal_texts (h : heap) (level : Z) :
  ∀ p ks, is_chain h p ks →
  Forall (λ k, isText h (root k) = true) ks →
  ∀ fuel, cost_chain ks ≤ fuel →
  emits (indent_element_children EscapeString Render fuel h true p level)
        (join (map (λ k, data_of h (root k)) ks)).
Proof.
  apply (is_chain_mut h (λ _, True)
           (λ p ks, Forall (λ k, isText h (root k) = true) ks →
              ∀ fuel, cost_chain ks ≤ fuel →
              emits (indent_element_children EscapeString Render fuel h true p level)
                    (join (map (λ k, data_of h (root k)) ks)))); [done| |].
  - intros _ fuel Hf. rewrite cost_chain_nil in Hf.
    destruct fuel as [|fuel]; [lia|]. apply emits_skip.
  - intros t ts m _ _ Hm _ IH Htext fuel Hf.
    apply Forall_cons in Htext as [Ht Hts].
    rewrite cost_chain_cons in Hf. pose proof (cost_pos t).
    destruct fuel as [|fuel]; [lia|].
    intros buf b. cbn [indent_element_children]. rewrite Hm. cbn [mbind option_bind].
    rewrite (isText_lookup _ _ _ Hm) in Ht. rewrite Ht.
    assert (Hd : data_of h (root t) = Data m) by (unfold data_of; by rewrite Hm).
    cbn [map join fold_right]. rewrite Hd.
    assert (Hrest : cost_chain ts ≤ fuel) by lia.
    exact (emits_and_then _ _ _ _ (emits_Fprint (Data m)) (IH Hts fuel Hrest) buf b).
Qed.
End BufferFacts.

Lemma and_then_emits (a rest : @act string) (s buf : string) (b : bool) :
  emits a s →
  and_then a rest (mkBolwriter buf b) = rest (mkBolwriter (buf +:+ s) (bol_after b s)).
Proof. intros Ha. unfold and_then. by rewrite Ha. Qed.

(** X15: an element whose tag is in the void set is rendered as its
    opening tag and nothing else: with one unit of fuel, without a look at
    its children and without a closing tag, and with nil as the error. *)
Theorem void_element_is_its_opening_tag
    (EscapeString : string → string) (Render : heap → nat → string * option error)
    (h : heap) (n : nat) (nd : Node) (fuel : nat) (level : Z) (prefix buf : string)
    (b : bool) :
  h !! n = Some nd → Type_ nd = ElementNode →
  Has voidElements (DataAtom nd) = true →
  Repeat "  " level = Some prefix →
  ∃ b',
    indent EscapeString Render (S fuel) h n level (mkBolwriter buf b) =
    Some (mkBolwriter (buf +:+ open_tag EscapeString prefix b nd) b', None).
Proof.
  intros Hn Hty Hvoid Hprefix. cbn [indent].
  rewrite Hprefix. cbn [mbind option_bind]. rewrite Hn. cbn [mbind option_bind].
  rewrite Hty, Hvoid.
  set (isBlock := Has blockElements (DataAtom nd)).
  rewrite (lead_in_buffer isBlock prefix).
  rewrite (and_then_emits _ _ _ _ _ (emits_Fprint _)).
  rewrite (and_then_emits _ _ _ _ _ (emits_write_attrs EscapeString _)).
  rewrite (and_then_emits _ _ _ _ _ (emits_Fprint _)).
  assert (Hnl : emits (if isBlock then Fprint nl else skip) (if isBlock then nl else "")).
  { destruct isBlock; [apply emits_Fprint|apply emits_skip]. }
  rewrite (and_then_emits _ _ _ _ _ Hnl).
  unfold skip. eexists. do 2 f_equal.
  unfold open_tag. fold isBlock. rewrite !string_app_assoc. reflexivity.
Qed.

Lemma void_element_is_its_opening_tag_witness :
  ∃ b',
    indent (λ s, s) Render_data 1 br_alone 0 1%Z (mkBolwriter "x" false) =
    Some (mkBolwriter ("x" +:+ "<br class=" +:+ quote +:+ "x" +:+ quote +:+ ">") b', None).
Proof.
  destruct (void_element_is_its_opening_tag (λ s, s) Render_data br_alone 0
              (mkNode None None None None None ElementNode atom.Br "br" ""
                 [mkAttr "" "class" "x"]) 0 1%Z "  " "x" false)
    as [b' Hb'].
  - reflexivity.
  - reflexivity.
  - reflexivity.
  - reflexivity.
  - exists b'. exact Hb'.
Defined.

(** X16: the Text children of a literal-content element are written as
    they are, byte for byte: not escaped, not indented and not handed to
    [html.Render]; between the opening and the closing tag there is their
    [Data] and, only when that ends with a newline, the indentation of
    the closing tag. *)
Theorem literal_text_children_verbatim
    (EscapeString : string → string) (Render : heap → nat → string * option error)
    (h : heap) (n : nat) (nd : Node) (ks : list tree) (fuel : nat) (level : Z)
    (prefix buf : string) (b : bool) :
  h !! n = Some nd → Type_ nd = ElementNode →
  Has literalChildElements (DataAtom nd) = true →
  is_chain h (FirstChild nd) ks →
  Forall (λ k, isText h (root k) = true) ks →
  Repeat "  " level = Some prefix →
  S (cost_chain ks) ≤ fuel →
  let content := join (map (λ k, data_of h (root k)) ks) in
  ∃ b',
    indent EscapeString Render fuel h n level (mkBolwriter buf b) =
    Some (mkBolwriter
            (buf +:+ open_tag EscapeString prefix b nd +:+ content +:+
             (if ends_with_newline content then prefix else "") +:+
             "</" +:+ Data nd +:+ ">") b', None).
Proof.
  intros Hn Hty Hlit Hchain Htexts Hprefix Hf content.
  destruct (literal_not_block_nor_void _ Hlit) as [Hblock Hvoid].
  destruct fuel as [|fuel]; [lia|]. cbn [indent].
  rewrite Hprefix. cbn [mbind option_bind]. rewrite Hn. cbn [mbind option_bind].
  rewrite Hty, Hvoid, Hlit, Hblock.
  rewrite (lead_in_buffer false prefix). cbn [andb orb].
  rewrite (and_then_emits _ _ _ _ _ (emits_Fprint _)).
  rewrite (and_then_emits _ _ _ _ _ (emits_write_attrs EscapeString _)).
  rewrite (and_then_emits _ _ _ _ _ (emits_Fprint _)).
  rewrite (and_then_emits _ _ _ _ _ emits_skip).
  assert (Hfuel : cost_chain ks ≤ fuel) by lia.
  rewrite (and_then_emits _ _ _ _ _
             (emits_literal_texts EscapeString Render h level _ _ Hchain Htexts
                fuel Hfuel)).
  fold content.
  rewrite (and_then_emits _ _ _ _ _ emits_skip).
  unfold and_then, if_bol. cbn [bol].
  change (bol_after _ "") with
    (bol_after (bol_after false "") content).
  change (bol_after false "") with false. rewrite bol_after_false.
  unfold open_tag. rewrite Hblock. cbn [andb orb].
  destruct (ends_with_newline content).
  - rewrite !(emits_Fprint _). eexists. do 2 f_equal.
    rewrite !string_app_assoc, ?string_app_nil_r. reflexivity.
  - unfold skip. rewrite (emits_Fprint _). eexists. do 2 f_equal.
    rewrite !string_app_assoc, ?string_app_nil_r. reflexivity.
Qed.

Lemma literal_text_children_verbatim_witness :
  ∃ b',
    indent (λ _, "") Render_data 10 script_two_texts 0 0%Z (mkBolwriter "" true) =
    Some (mkBolwriter "<script>a<b;</script>" b', None).
Proof.
  destruct (literal_text_children_verbatim (λ _, "") Render_data script_two_texts 0
              (mkNode None (Some 1) (Some 2) None None ElementNode atom.Script
                 "script" "" [])
              [T 1 []; T 2 []] 10 0%Z "" "" true)
    as [b' Hb'].
  - reflexivity.
  - reflexivity.
  - reflexivity.
  - is_tree_tac.
  - repeat constructor.
  - reflexivity.
  - vm_compute; lia.
  - exists b'. exact Hb'.
Defined.

Lemma ensureNewline_bol `{ByteWriter W} (st st' : bolwriter W) :
  ensureNewline st = Some (st', None) → bol st' = true.
Proof.
  unfold ensureNewline. destruct (bol st) eqn:Hb.
  - by intros [= <-].
  - destruct (WriteByte (w st) newline) as [bw [e|]]; [done|]. by intros [= <-].
Qed.

(** X17: after a Doctype node has been rendered without error the stream
    stands at the beginning of a line. *)
Theorem Doctype_ends_its_line {W : Type} {BW : ByteWriter W} (written : W → string)
    (EscapeString : string → string) (Render : heap → nat → string * option error)
    (h : heap) (n : nat) (nd : Node) (fuel : nat) (level : Z) (st st' : bolwriter W) :
  (∀ bw b bw', WriteByte bw b = (bw', None) →
               written bw' = written bw +:+ String b "") →
  bol st = at_bol (written (w st)) →
  h !! n = Some nd → Type_ nd = DoctypeNode →
  indent EscapeString Render fuel h n level st = Some (st', None) →
  bol st' = true ∧ at_bol (written (w st')) = true.
Proof.
  intros Hwb Hexact Hn Hty Hrun.
  assert (Hb : bol st' = true).
  { destruct fuel as [|fuel]; [done|]. cbn [indent] in Hrun.
    destruct (Repeat "  " level) as [prefix|]; [|done].
    cbn [mbind option_bind] in Hrun. rewrite Hn in Hrun.
    cbn [mbind option_bind] in Hrun. rewrite Hty in Hrun.
    unfold and_then in Hrun.
    destruct (html_Render Render h n st) as [[st1 [e|]]|]; [done| |done].
    by eapply ensureNewline_bol. }
  split; [done|]. rewrite <- Hb. symmetry.
  apply (proj1 (keeps_indent EscapeString Render written Hwb fuel) h n level st st');
    done.
Qed.

Lemma Doctype_ends_its_line_witness :
  ∃ st' : bolwriter string,
    indent (λ s, s) Render_data 1 doctype_alone 0 0%Z (mkBolwriter "" true)
      = Some (st', None) ∧
    bol st' = true ∧ at_bol (w st') = true.
Proof.
  assert (Hrun : ∃ st' : bolwriter string,
    indent (λ s, s) Render_data 1 doctype_alone 0 0%Z (mkBolwriter "" true)
      = Some (st', None)) by (vm_compute; eexists; reflexivity).
  destruct Hrun as [st' Hrun]. exists st'. split; [exact Hrun|].
  apply (Doctype_ends_its_line (λ s : string, s) (λ s, s) Render_data doctype_alone 0
           (mkNode None None None None None DoctypeNode "" "html" "" []) 1 0%Z
           (mkBolwriter "" true) st').
  - intros bw b bw' [= <-]. reflexivity.
  - reflexivity.
  - reflexivity.
  - reflexivity.
  - exact Hrun.
Defined.

(** ** More on WriteText and Prune *)

(** X18: WriteText into a [bytes.Buffer] leaves what the buffer held and
    adds to it what Text returns for the node; it returns nil. *)
Theorem WriteText_appends_Text (UnescapeString : string → string)
    (h : heap) (t : tree) (fuel : nat) (buf : string) :
  is_tree h t → fuel_for t ≤ fuel →
  ∃ txt, Text UnescapeString fuel h (root t) = Some (txt, None) ∧
         WriteText UnescapeString fuel h buf (root t) = Some (buf +:+ txt, None).
Proof.
  intros Ht Hf. pose proof (cost_le_fuel_for t).
  exists (join (text_chunks UnescapeString h t)). unfold Text.
  rewrite !(proj1 (WriteText_sound_mut UnescapeString h) t Ht) by lia.
  by rewrite !write_all_buffer.
Qed.

Lemma WriteText_appends_Text_witness :
  ∃ txt, Text (λ s, s) 20 Fixtures.para 0 = Some (txt, None) ∧
         WriteText (λ s, s) 20 Fixtures.para "so far: " 0 = Some ("so far: " +:+ txt, None).
Proof.
  apply (WriteText_appends_Text (λ s, s) Fixtures.para Fixtures.para_tree 20 "so far: ").
  - exact para_is_tree.
  - vm_compute; lia.
Defined.

Lemma pruned_copies_origin pred h0 h' hi lo ts ps q :
  pruned_copies pred h0 h' hi lo ts ps → q ∈ ps →
  ∃ k lo', k ∈ ts ∧ pred h0 (root k) = false ∧ pruned_copy pred h0 h' lo' k q.
Proof.
  revert lo ps. induction ts as [|t ts IH]; intros lo ps; simpl.
  - intros -> Hq. by apply elem_of_nil in Hq.
  - destruct (pred h0 (root t)) eqn:Hp.
    + intros Hps Hq. destruct (IH _ _ Hps Hq) as (k & lo' & Hk & Hrest).
      exists k, lo'. split; [by right|done].
    + destruct ps as [|p ps]; [done|]. intros (_ & Hcopy & Hps) Hq.
      apply elem_of_cons in Hq as [->|Hq].
      * exists t, lo. split; [by left|done].
      * destruct (IH _ _ Hps Hq) as (k & lo' & Hk & Hrest).
        exists k, lo'. split; [by right|done].
Qed.

(** X19: Prune does not set [Parent]: in the copy, every child of the
    returned node still has the [Parent] of the node it was copied from.
    When the children of the original point to it as their parent, the
    children of the copy point to the original, not to the copy. *)
Theorem Prune_keeps_parent_pointers (pred : heap → nat → bool) (h : heap)
    (a : nat) (ks : list tree) (fuel : nat) :
  is_tree h (T a ks) → pred_stable pred h → fuel_for (T a ks) ≤ fuel →
  pred h a = false →
  (∀ k n, k ∈ ks → h !! root k = Some n → Parent n = Some a) →
  ∃ h' p ps res,
    Prune pred fuel h a = Some (h', Some p) ∧
    h' !! p = Some res ∧ FirstChild res = head ps ∧ linked h' ps ∧
    a ≠ p ∧
    ∀ q, q ∈ ps → ∃ m, h' !! q = Some m ∧ Parent m = Some a.
Proof.
  intros Ht Hst Hf Hp Hparents.
  destruct (Prune_copy pred h (T a ks) fuel Ht Hst Hf Hp) as (h' & p & HP & Hcopy).
  pose proof (proj1 (Prune_frame pred fuel) _ _ _ _ HP) as [He Hfresh].
  specialize (Hfresh p eq_refl).
  apply pruned_copy_T in Hcopy
    as (n & res & ps & Hn & Hres & _ & Hfc & _ & Hlink & Hps).
  exists h', p, ps, res. simpl root in HP.
  split; [done|]. split; [done|]. split; [done|]. split; [done|]. split.
  - apply lookup_lt_Some in Hn. lia.
  - intros q Hq.
    destruct (pruned_copies_origin _ _ _ _ _ _ _ _ Hps Hq)
      as (k & lo' & Hk & _ & Hkcopy).
    destruct k as [c cs]. apply pruned_copy_T in Hkcopy
      as (nc & m & _ & Hnc & Hm & Hpay & _).
    exists m. split; [done|].
    unfold payload in Hpay. injection Hpay as Hparent _ _ _ _ _.
    rewrite Hparent. by apply (Hparents (T c cs) nc).
Qed.

Lemma Prune_keeps_parent_pointers_witness :
  ∃ h' p ps res,
    Prune (Fixtures.atom_is atom.Br) 20 Fixtures.para 0 = Some (h', Some p) ∧
    h' !! p = Some res ∧ FirstChild res = head ps ∧ linked h' ps ∧
    0 ≠ p ∧
    ∀ q, q ∈ ps → ∃ m, h' !! q = Some m ∧ Parent m = Some 0.
Proof.
  apply (Prune_keeps_parent_pointers (Fixtures.atom_is atom.Br) Fixtures.para
           0 [T 1 []; T 2 []] 20 para_is_tree).
  - intros k a Ha. unfold Fixtures.atom_is. by rewrite lookup_app_l.
  - vm_compute; lia.
  - reflexivity.
  - intros k n Hk Hn.
    repeat (apply elem_of_cons in Hk as [->|Hk];
            [by injection Hn as <-|]).
    by apply elem_of_nil in Hk.
Defined.
